(** * The render3 query engine ([packages/core/src/render3/query.ts])

    A shallow embedding of the query tracker [LQueries_], the predicate
    matcher [add] and the result list [QueryList_], followed by the
    properties of the engine that the specification states.

    The JavaScript heap is modelled explicitly: arrays, query lists and
    trackers are objects whose identity matters (a value-tree array is
    shared between a predicate and its target list, a tracker may be
    returned by [child] as itself), so they live in stores addressed by
    location and every operation threads the heap. *)

From Stdlib Require Import ZArith Lia.
From stdpp Require Import base list option strings.


(** ** JavaScript values *)

(** Locations in the stores of the heap. *)
Abbreviation loc := nat (only parsing).

(** [Type<T>]: the identity of a directive class. *)
Abbreviation TypeToken := nat (only parsing).

(** A value that a read can produce or a directive slot can hold.  Matched
    values (directive instances, element references) are opaque objects;
    they are not arrays and carry no [length] property. *)
Inductive jsval :=
| JUndefined
| JNull
| JObj (id : nat).

(** An element of a value-tree array ([any[]]): a matched value or a
    reference to a nested array. *)
Inductive elem :=
| EVal (v : jsval)
| EArr (a : loc).

#[global] Instance jsval_eq_dec : EqDecision jsval.
Proof. solve_decision. Defined.
#[global] Instance elem_eq_dec : EqDecision elem.
Proof. solve_decision. Defined.

(** [l[i]] for a JavaScript array: [undefined] outside the array. *)
Definition js_index {A} (undef : A) (l : list A) (i : Z) : A :=
  if (i <? 0)%Z then undef else default undef (l !! Z.to_nat i).

(** [ToInt32], applied by [>>] and [&] to their operands. *)
Definition toInt32 (z : Z) : Z :=
  ((z + 2 ^ 31) mod 2 ^ 32 - 2 ^ 31)%Z.

(** The position at which [Array.prototype.splice(index, ...)] starts in
    an array of [len] elements: a negative index counts from the end, and
    the result is clamped to the array. *)
Definition splice_start (index : Z) (len : nat) : nat :=
  if (index <? 0)%Z then Z.to_nat (Z.max (Z.of_nat len + index) 0)
  else Z.to_nat (Z.min index (Z.of_nat len)).

(** [l.splice(index, 0, x)]: the array afterwards. *)
Definition splice_insert {A} (index : Z) (x : A) (l : list A) : list A :=
  let s := splice_start index (length l) in
  take s l ++ x :: drop s l.

(** [l.splice(index, 1)]: the removed elements and the array afterwards. *)
Definition splice_remove {A} (index : Z) (l : list A) : list A * list A :=
  let s := splice_start index (length l) in
  (take 1 (drop s l), take s l ++ drop (S s) l).

(** ** The node a predicate is matched against *)

(** [DirectiveDef]: [diPublic] is a function or [null]; only its
    truthiness is read. *)
Record DirectiveDef := {
  diPublic : bool;
  dtype : TypeToken
}.

(** [TNode.localNames]: the source stores the pairs flattened,
    [name, index, name, index, ...], and walks them two by two. *)
Record TNode := {
  localNames : option (list (string * Z))
}.

(** [LNode], with [node.view.tView.data] as [tData] and [node.view.data]
    as [data]. *)
Record LNode := {
  tData : list DirectiveDef;
  data : list jsval;
  flags : Z;
  tNode : option TNode
}.

(** [read: QueryReadType<T>|Type<T>]: an instance of [ReadFromInjectorFn]
    (declared in [di.ts]) wraps the function it calls; anything else is a
    type token. *)
Inductive ReadToken :=
| ReadFromInjectorFn (read : LNode -> Z -> jsval)
| ReadType (T : TypeToken).

(** ** Heap objects *)

(** [QueryList_].  [changes] is an [EventEmitter]; the model keeps the
    number of times [emit] was called on it. *)
Record QueryList_ := {
  dirty : bool;
  changes : nat;
  _values : list jsval;
  _valuesTree : loc
}.

(** [QueryPredicate].  A predicate object is never mutated once it is
    linked into a chain, so a chain is a list and [next] is its tail;
    [qlist] is the field [list] and [values] the array it points to. *)
Record QueryPredicate := {
  qlist : loc;
  type : option TypeToken;
  selector : option (list string);
  read : option ReadToken;
  values : loc
}.

(** [LQueries_]. *)
Record LQueries_ := {
  shallow : list QueryPredicate;
  deep : list QueryPredicate
}.

Record Heap := {
  arrays : list (list elem);
  lists : list QueryList_;
  trackers : list LQueries_
}.

Definition upd_arrays (f : list (list elem) -> list (list elem)) (h : Heap) : Heap :=
  {| arrays := f (arrays h); lists := lists h; trackers := trackers h |}.
Definition upd_lists (f : list QueryList_ -> list QueryList_) (h : Heap) : Heap :=
  {| arrays := arrays h; lists := f (lists h); trackers := trackers h |}.
Definition upd_trackers (f : list LQueries_ -> list LQueries_) (h : Heap) : Heap :=
  {| arrays := arrays h; lists := lists h; trackers := f (trackers h) |}.

(** ** Computations on the heap *)

Inductive error :=
| AssertionError (msg : string)
| TypeError
| DanglingRef
| Diverges.

(** A call returns, or throws; the mutations made before a throw stay. *)
Inductive result (A : Type) :=
| Ok (a : A) (h : Heap)
| Throw (e : error) (h : Heap).
Arguments Ok {A} a h.
Arguments Throw {A} e h.

Definition M (A : Type) : Type := Heap -> result A.

#[global] Instance M_ret : MRet M := fun A a h => Ok a h.
#[global] Instance M_bind : MBind M := fun A B k m h =>
  match m h with
  | Ok a h' => k a h'
  | Throw e h' => Throw e h'
  end.

Definition throw {A} (e : error) : M A := fun h => Throw e h.

Definition lift {A} (r : error + A) : M A :=
  match r with
  | inl e => throw e
  | inr a => mret a
  end.

Definition arr_get (a : loc) : M (list elem) := fun h =>
  match arrays h !! a with
  | Some vs => Ok vs h
  | None => Throw DanglingRef h
  end.
Definition arr_set (a : loc) (vs : list elem) : M unit := fun h =>
  Ok tt (upd_arrays (<[a := vs]>) h).
Definition arr_new : M loc := fun h =>
  Ok (length (arrays h)) (upd_arrays (.++ [[]]) h).

Definition list_get (l : loc) : M QueryList_ := fun h =>
  match lists h !! l with
  | Some q => Ok q h
  | None => Throw DanglingRef h
  end.
Definition list_set (l : loc) (q : QueryList_) : M unit := fun h =>
  Ok tt (upd_lists (<[l := q]>) h).
Definition list_new (q : QueryList_) : M loc := fun h =>
  Ok (length (lists h)) (upd_lists (.++ [q]) h).

Definition tracker_get (t : loc) : M LQueries_ := fun h =>
  match trackers h !! t with
  | Some q => Ok q h
  | None => Throw DanglingRef h
  end.
Definition tracker_set (t : loc) (q : LQueries_) : M unit := fun h =>
  Ok tt (upd_trackers (<[t := q]>) h).
Definition tracker_new (q : LQueries_) : M loc := fun h =>
  Ok (length (trackers h)) (upd_trackers (.++ [q]) h).

(** [a.push(x)] *)
Definition arr_push (a : loc) (x : elem) : M unit :=
  vs ← arr_get a; arr_set a (vs ++ [x]).

(** ** [flatten] *)

(** Modelled from the spec: [flatten] of [./util] is not part of the
    sources at hand.  The specification has [reset] replace the values by
    the flattened nested value tree: the matched values of the tree, depth
    first and in array order.  Nesting is followed through the heap, so the
    recursion is bounded by [fuel]; on a value tree that contains itself
    the walk finds no result. *)
Fixpoint flatten_with (rec : loc -> option (list jsval)) (vs : list elem)
  : option (list jsval) :=
  match vs with
  | [] => Some []
  | EVal v :: r => rest ← flatten_with rec r; Some (v :: rest)
  | EArr a :: r => fl ← rec a; rest ← flatten_with rec r; Some (fl ++ rest)
  end.

Fixpoint flatten_arr (fuel : nat) (A : list (list elem)) (a : loc)
  : option (list jsval) :=
  match fuel with
  | O => None
  | S n => ws ← A !! a; flatten_with (flatten_arr n A) ws
  end.

(** No chain of nested arrays without a repetition is longer than the
    number of arrays. *)
Definition flatten (A : list (list elem)) (a : loc) : option (list jsval) :=
  flatten_arr (S (length A)) A a.

(** The flattening of a sequence of elements of the store [A]. *)
Definition flatten_elems (A : list (list elem)) (vs : list elem)
  : option (list jsval) :=
  flatten_with (flatten_arr (length A) A) vs.

(** ** [QueryList_] *)

Module QueryList.

(** [new QueryList_()]: [dirty = true], no values, a new empty
    [_valuesTree]. *)
Definition new : M loc :=
  tree ← arr_new;
  list_new {| dirty := true; changes := 0; _values := []; _valuesTree := tree |}.

Definition length (q : QueryList_) : nat := List.length (_values q).

Definition first (q : QueryList_) : jsval :=
  let values := _values q in
  if decide (List.length values = 0) then JNull
  else js_index JUndefined values 0.

Definition last (q : QueryList_) : jsval :=
  let values := _values q in
  if decide (List.length values = 0) then JNull
  else js_index JUndefined values (Z.of_nat (List.length values) - 1).

Definition toArray (q : QueryList_) : list jsval := _values q.

(** [reset(res)], called with the value-tree array. *)
Definition reset (this : loc) (res : loc) : M unit := fun h =>
  match flatten (arrays h) res with
  | None => Throw Diverges h
  | Some vs =>
    (q ← list_get this;
     list_set this {| dirty := false; changes := changes q;
                      _values := vs; _valuesTree := _valuesTree q |}) h
  end.

Definition notifyOnChanges (this : loc) : M unit :=
  q ← list_get this;
  list_set this {| dirty := dirty q; changes := S (changes q);
                   _values := _values q; _valuesTree := _valuesTree q |}.

Definition setDirty (this : loc) : M unit :=
  q ← list_get this;
  list_set this {| dirty := true; changes := changes q;
                   _values := _values q; _valuesTree := _valuesTree q |}.

End QueryList.

(** [queryRefresh(queryList)] *)
Definition queryRefresh (queryList : loc) : M bool :=
  q ← list_get queryList;
  if dirty q then
    QueryList.reset queryList (_valuesTree q);;
    QueryList.notifyOnChanges queryList;;
    mret true
  else mret false.

#[global] Instance M_fmap : FMap M := fun A B f m =>
  a ← m; mret (f a).

(** ** Build parameters *)

(** [ngDevMode] is a global of the build, and the enumeration [LNodeFlags]
    is declared in [interfaces/node.ts]; neither is fixed by the file, so
    the development is parametric in them. *)
Class BuildEnv := {
  ngDevMode : bool;
  INDX_SHIFT : Z;
  SIZE_MASK : Z;
  SIZE_SHIFT : Z
}.

(** Modelled from the spec: [assertNotNull] and [assertEqual] of
    [./assert] are not part of the sources at hand; a detected violation
    aborts the current operation with an assertion failure. *)
Definition assertNotNull {A} (actual : option A) (msg : string) : M unit :=
  match actual with
  | Some _ => mret tt
  | None => throw (AssertionError msg)
  end.

Definition assertEqual (actual expected : nat) (msg : string) : M unit :=
  if decide (actual = expected) then mret tt else throw (AssertionError msg).

Section Engine.
Context {env : BuildEnv}.

(** [ngDevMode && check] *)
Definition dev_only (check : M unit) : M unit :=
  if ngDevMode then check else mret tt.

(** *** Matching *)

(** The loop of [getIdxOfMatchingSelector] over the name/index pairs. *)
Fixpoint localNames_scan (localNames : list (string * Z)) (selector : string)
  : option Z :=
  match localNames with
  | [] => None
  | (name, idx) :: rest =>
    if decide (name = selector) then Some idx
    else localNames_scan rest selector
  end.

Definition getIdxOfMatchingSelector (tNode : TNode) (selector : string)
  : option Z :=
  match localNames tNode with
  | Some localNames => localNames_scan localNames selector
  | None => None
  end.

Definition js_lookup {A} (l : list A) (i : Z) : option A :=
  if (i <? 0)%Z then None else l !! Z.to_nat i.

(** [x >> n] and [x & y] on numbers. *)
Definition js_shr (x n : Z) : Z := Z.shiftr (toInt32 x) (n mod 32).
Definition js_and (x y : Z) : Z := Z.land (toInt32 x) (toInt32 y).

(** The loop of [geIdxOfMatchingDirective]: [count] iterations from
    [i].  Reading [def.diPublic] of a slot outside [tData] throws.  The
    token is optional because [readFromNodeInjector] may pass on a [null]
    read; no directive type is [null]. *)
Fixpoint directive_scan (tData : list DirectiveDef) (type : option TypeToken)
    (i : Z) (count : nat) : error + option Z :=
  match count with
  | O => inr None
  | S count' =>
    match js_lookup tData i with
    | None => inl TypeError
    | Some def =>
      if diPublic def && bool_decide (Some (dtype def) = type) then inr (Some i)
      else directive_scan tData type (i + 1) count'
    end
  end.

Definition geIdxOfMatchingDirective (node : LNode) (type : option TypeToken)
  : error + option Z :=
  let i := js_shr (flags node) INDX_SHIFT in
  let ii := (i + js_shr (js_and (flags node) SIZE_MASK) SIZE_SHIFT)%Z in
  directive_scan (tData node) type i (Z.to_nat (ii - i)).

(** The injector of the node ([getOrCreateNodeInjectorForNode]) is a
    function of the node, so the read function receives the node only. *)
Definition readFromNodeInjector (node : LNode) (read : option ReadToken)
    (directiveIdx : Z) : error + jsval :=
  match read with
  | Some (ReadFromInjectorFn f) => inr (f node directiveIdx)
  | _ =>
    let token := match read with Some (ReadType T) => Some T | _ => None end in
    match geIdxOfMatchingDirective node token with
    | inl e => inl e
    | inr (Some matchingIdx) => inr (js_index JUndefined (data node) matchingIdx)
    | inr None => inr JNull
    end
  end.

Definition addMatch (predicate : QueryPredicate) (matchingValue : jsval) : M unit :=
  arr_push (values predicate) (EVal matchingValue);;
  QueryList.setDirty (qlist predicate).

(** The branch of [add] for a predicate with a type. *)
Definition add_type (predicate : QueryPredicate) (type : TypeToken) (node : LNode)
  : M unit :=
  directiveIdx ← lift (geIdxOfMatchingDirective node (Some type));
  match directiveIdx with
  | Some directiveIdx =>
    result ← lift (readFromNodeInjector node
                     (Some (default (ReadType type) (read predicate))) directiveIdx);
    if decide (result = JNull) then mret tt else addMatch predicate result
  | None => mret tt
  end.

(** The loop of [add] over the names of a selector. *)
Fixpoint add_selector (predicate : QueryPredicate) (selector : list string)
    (node : LNode) : M unit :=
  match selector with
  | [] => mret tt
  | name :: rest =>
    dev_only (assertNotNull (tNode node) "node.tNode");;
    tn ← match tNode node with
         | Some tn => mret tn
         | None => throw TypeError
         end;
    match getIdxOfMatchingSelector tn name with
    | Some directiveIdx =>
      dev_only (assertNotNull (read predicate) "predicate.read");;
      result ← lift (readFromNodeInjector node (read predicate) directiveIdx);
      if decide (result = JNull) then mret tt else addMatch predicate result
    | None => mret tt
    end;;
    add_selector predicate rest node
  end.

(** One turn of the [while] loop of [add]. *)
Definition add_one (predicate : QueryPredicate) (node : LNode) : M unit :=
  match type predicate with
  | Some type => add_type predicate type node
  | None =>
    match selector predicate with
    | Some selector => add_selector predicate selector node
    | None => throw TypeError
    end
  end.

Fixpoint add (predicate : list QueryPredicate) (node : LNode) : M unit :=
  match predicate with
  | [] => mret tt
  | p :: next => add_one p node;; add next node
  end.

Definition createPredicate (previous : list QueryPredicate) (queryList : loc)
    (predicate : TypeToken + list string) (read : option ReadToken)
  : M (list QueryPredicate) :=
  q ← list_get queryList;
  mret ({| qlist := queryList;
           type := match predicate with inl T => Some T | inr _ => None end;
           selector := match predicate with inl _ => None | inr names => Some names end;
           read := read;
           values := _valuesTree q |} :: previous).

(** *** [LQueries_] *)

Definition clonePredicate (predicate : QueryPredicate) (values : loc)
  : QueryPredicate :=
  {| qlist := qlist predicate; type := type predicate;
     selector := selector predicate; read := read predicate;
     values := values |}.

(** [new LQueries_(deep)] *)
Definition newLQueries (deep : list QueryPredicate) : M loc :=
  tracker_new {| shallow := []; deep := deep |}.

Definition track (this : loc) (queryList : loc)
    (predicate : TypeToken + list string) (descend : bool)
    (read : option ReadToken) : M unit :=
  t ← tracker_get this;
  if descend then
    d ← createPredicate (deep t) queryList predicate read;
    tracker_set this {| shallow := shallow t; deep := d |}
  else
    s ← createPredicate (shallow t) queryList predicate read;
    tracker_set this {| shallow := s; deep := deep t |}.

Definition child (this : loc) : M (option loc) :=
  t ← tracker_get this;
  match deep t with
  | [] => mret None
  | _ :: _ =>
    match shallow t with
    | [] => mret (Some this)
    | _ :: _ => Some <$> newLQueries (deep t)
    end
  end.

Fixpoint container_loop (predicate result : list QueryPredicate)
  : M (list QueryPredicate) :=
  match predicate with
  | [] => mret result
  | p :: next =>
    containerValues ← arr_new;
    arr_push (values p) (EArr containerValues);;
    container_loop next (clonePredicate p containerValues :: result)
  end.

Definition container (this : loc) : M (option loc) :=
  t ← tracker_get this;
  result ← container_loop (deep t) [];
  match result with
  | [] => mret None
  | _ :: _ => Some <$> newLQueries result
  end.

Fixpoint enterView_loop (index : Z) (predicate result : list QueryPredicate)
  : M (list QueryPredicate) :=
  match predicate with
  | [] => mret result
  | p :: next =>
    viewValues ← arr_new;
    vs ← arr_get (values p);
    arr_set (values p) (splice_insert index (EArr viewValues) vs);;
    enterView_loop index next (clonePredicate p viewValues :: result)
  end.

Definition enterView (index : Z) (this : loc) : M (option loc) :=
  t ← tracker_get this;
  result ← enterView_loop index (deep t) [];
  match result with
  | [] => mret None
  | _ :: _ => Some <$> newLQueries result
  end.

Definition addNode (node : LNode) (this : loc) : M unit :=
  t ← tracker_get this;
  add (shallow t) node;;
  t ← tracker_get this;
  add (deep t) node.

(** [removed[0].length] for the result [removed] of the splice:
    reading a property of [undefined] or [null] throws, an object that
    is not an array has no [length]. *)
Definition removed_length (removed : list elem) : M nat :=
  match removed with
  | [] | EVal JUndefined :: _ | EVal JNull :: _ => throw TypeError
  | EVal (JObj _) :: _ => mret 0
  | EArr a :: _ => vs ← arr_get a; mret (length vs)
  end.

Fixpoint removeView_loop (index : Z) (predicate : list QueryPredicate) : M unit :=
  match predicate with
  | [] => mret tt
  | p :: next =>
    vs ← arr_get (values p);
    let '(removed, remaining) := splice_remove index vs in
    arr_set (values p) remaining;;
    dev_only (assertEqual (length removed) 1 "removed.length");;
    len ← removed_length removed;
    (if decide (len = 0) then mret tt else QueryList.setDirty (qlist p));;
    removeView_loop index next
  end.

Definition removeView (index : Z) (this : loc) : M unit :=
  t ← tracker_get this;
  removeView_loop index (deep t).

(** [_clonePredicates(predicateCloneFn)]: the loop that [container] and
    [enterView] both write out, with the cloning step as a parameter. *)
Fixpoint _clonePredicates_loop (predicateCloneFn : QueryPredicate -> M QueryPredicate)
    (predicate result : list QueryPredicate) : M (list QueryPredicate) :=
  match predicate with
  | [] => mret result
  | p :: next =>
    clonedPredicate ← predicateCloneFn p;
    _clonePredicates_loop predicateCloneFn next (clonedPredicate :: result)
  end.

Definition _clonePredicates (this : loc)
    (predicateCloneFn : QueryPredicate -> M QueryPredicate) : M (option loc) :=
  t ← tracker_get this;
  result ← _clonePredicates_loop predicateCloneFn (deep t) [];
  match result with
  | [] => mret None
  | _ :: _ => Some <$> newLQueries result
  end.

(** The cloning step of [container] and of [enterView]: a new array is
    put into the value tree of the predicate by [ins] and becomes the
    value tree of the clone. *)
Definition insert_clone (ins : elem -> list elem -> list elem)
    (p : QueryPredicate) : M QueryPredicate :=
  fresh ← arr_new;
  vs ← arr_get (values p);
  arr_set (values p) (ins (EArr fresh) vs);;
  mret (clonePredicate p fresh).

Definition push_elem (x : elem) (vs : list elem) : list elem := vs ++ [x].

End Engine.

(** ** Traces of calls *)

Definition heap_of {A} (r : result A) : Heap :=
  match r with
  | Ok _ h => h
  | Throw _ h => h
  end.

(** The calls the tree-build and change-detection driver makes. *)
Inductive op :=
| OpNewQueryList
| OpNewLQueries
| OpTrack (this queryList : loc) (predicate : TypeToken + list string)
    (descend : bool) (read : option ReadToken)
| OpChild (this : loc)
| OpContainer (this : loc)
| OpEnterView (index : Z) (this : loc)
| OpAddNode (node : LNode) (this : loc)
| OpRemoveView (index : Z) (this : loc)
| OpQueryRefresh (queryList : loc).

Section Traces.
Context {env : BuildEnv}.

(** The heap a call leaves, whether it returns or throws. *)
Definition exec (o : op) (h : Heap) : Heap :=
  match o with
  | OpNewQueryList => heap_of (QueryList.new h)
  | OpNewLQueries => heap_of (newLQueries [] h)
  | OpTrack this queryList predicate descend read =>
    heap_of (track this queryList predicate descend read h)
  | OpChild this => heap_of (child this h)
  | OpContainer this => heap_of (container this h)
  | OpEnterView index this => heap_of (enterView index this h)
  | OpAddNode node this => heap_of (addNode node this h)
  | OpRemoveView index this => heap_of (removeView index this h)
  | OpQueryRefresh queryList => heap_of (queryRefresh queryList h)
  end.

Definition run (ops : list op) (h : Heap) : Heap :=
  foldl (fun h o => exec o h) h ops.

End Traces.

(** ** Well-formed value trees *)

(** Every nested array was allocated after the array that holds it: this
    is how [container] and [enterView] grow a value tree. *)
Definition elem_above (n : nat) (a : loc) (e : elem) : Prop :=
  match e with
  | EVal _ => True
  | EArr b => a < b < n
  end.

Definition tree_ordered (A : list (list elem)) : Prop :=
  forall a vs, A !! a = Some vs -> Forall (elem_above (length A) a) vs.

(** A heap without dangling references whose value trees are well
    formed: what every sequence of calls builds from the empty heap. *)
Definition valid_chain (h : Heap) (ps : list QueryPredicate) : Prop :=
  Forall (fun p => values p < length (arrays h)) ps.

Record heap_wf (h : Heap) : Prop := {
  wf_ordered : tree_ordered (arrays h);
  wf_lists : Forall (fun q => _valuesTree q < length (arrays h)) (lists h);
  wf_trackers :
    Forall (fun t => valid_chain h (shallow t) ∧ valid_chain h (deep t))
      (trackers h)
}.

Definition keeps_wf (h h' : Heap) : Prop :=
  heap_wf h -> heap_wf h' ∧ length (arrays h) <= length (arrays h').

(** The value tree of the [k]-th predicate of a chain of [m] predicates
    after views were entered at the indices [idxs], one call after the
    other, on a heap that held [base] arrays before the first call: every
    call allocates [m] arrays, the [k]-th of them for this predicate. *)
Fixpoint views_after (base m k : nat) (idxs : list Z) (vs : list elem)
  : list elem :=
  match idxs with
  | [] => vs
  | idx :: rest =>
    views_after (base + m) m k rest (splice_insert idx (EArr (base + k)) vs)
  end.

(** The view slot of a predicate at [index]: the nested array stored there
    and its contents. *)
Definition view_slot (h : Heap) (index : Z) (p : QueryPredicate)
  : option (loc * list elem) :=
  vs ← arrays h !! values p;
  el ← (if (index <? 0)%Z then None else vs !! Z.to_nat index);
  match el with
  | EArr a => e ← arrays h !! a; Some (a, e)
  | EVal _ => None
  end.

Definition is_dirty (h : Heap) (l : loc) : option bool :=
  dirty <$> lists h !! l.

(** ** Concrete builds, nodes and heaps *)

(** A development build and a production build, with the directive count
    of a node in bits 2 to 11 of its flags and the index of its first
    directive from bit 12 on. *)
Definition devEnv : BuildEnv :=
  {| ngDevMode := true; INDX_SHIFT := 12; SIZE_MASK := 4092; SIZE_SHIFT := 2 |}.
Definition prodEnv : BuildEnv :=
  {| ngDevMode := false; INDX_SHIFT := 12; SIZE_MASK := 4092; SIZE_SHIFT := 2 |}.

(** A node with one public directive of type [T], stored at index 0, whose
    instance is [v]. *)
Definition directiveNode (T : TypeToken) (v : jsval) : LNode :=
  {| tData := [{| diPublic := true; dtype := T |}]; data := [v];
     flags := 4; tNode := None |}.

(** A node without directives that carries the local name [name] for the
    element itself. *)
Definition namedNode (name : string) : LNode :=
  {| tData := []; data := []; flags := 0;
     tNode := Some {| localNames := Some [(name, (-1)%Z)] |} |}.

Definition empty_heap : Heap :=
  {| arrays := []; lists := []; trackers := [] |}.

(** Query list 0 tracked by tracker 0 as a deep query for type 1. *)
Definition heap_one_deep : Heap :=
  Eval vm_compute in
    @run devEnv [OpNewQueryList; OpNewLQueries; OpTrack 0 0 (inl 1) true None]
      empty_heap.

(** The same, and a shallow query for type 2 into query list 1. *)
Definition heap_deep_shallow : Heap :=
  Eval vm_compute in
    @run devEnv [OpNewQueryList; OpTrack 0 1 (inl 2) false None] heap_one_deep.

(** [heap_one_deep] after a node with a directive of type 1 was added. *)
Definition heap_one_match : Heap :=
  Eval vm_compute in
    @run devEnv [OpAddNode (directiveNode 1 (JObj 7)) 0] heap_one_deep.

(** A predicate for the local name [foo] that was given no read strategy,
    and a predicate for type 1 that reads the type itself; both feed query
    list 0. *)
Definition fooPredicate : QueryPredicate :=
  {| qlist := 0; type := None; selector := Some ["foo"%string];
     read := None; values := 0 |}.
Definition typePredicate : QueryPredicate :=
  {| qlist := 0; type := Some 1; selector := None; read := None; values := 0 |}.

(** A predicate for the local name [foo] whose read strategy finds
    nothing. *)
Definition nullReadPredicate : QueryPredicate :=
  {| qlist := 0; type := None; selector := Some ["foo"%string];
     read := Some (ReadFromInjectorFn (fun _ _ => JNull)); values := 0 |}.

(** ** Relations between the heap before and after a call *)

Definition set_dirty (q : QueryList_) : QueryList_ :=
  {| dirty := true; changes := changes q; _values := _values q;
     _valuesTree := _valuesTree q |}.

(** A computation is stable for [R] when the heap it leaves, returning or
    throwing, is related by [R] to the heap it started from. *)
Definition stable {A} (R : Heap -> Heap -> Prop) (m : M A) : Prop :=
  forall h, R h (heap_of (m h)).

(** No array is ever freed. *)
Definition arrays_grow (h h' : Heap) : Prop :=
  length (arrays h) <= length (arrays h').

(** Only the arrays in [S] are written. *)
Definition arrays_frame (S : list loc) (h h' : Heap) : Prop :=
  forall a, a ∉ S -> arrays h' !! a = arrays h !! a.

Definition same_trackers (h h' : Heap) : Prop :=
  trackers h' = trackers h.

Definition keeps_ordered (h h' : Heap) : Prop :=
  tree_ordered (arrays h) -> tree_ordered (arrays h').

(** The clones of the chain [ps] made on a heap that holds [n] arrays: the
    clone of the [k]-th predicate owns array [n + k], and the chain of
    clones is in reverse order. *)
Definition clones_at (n : nat) (ps : list QueryPredicate) : list QueryPredicate :=
  reverse (imap (fun k p => clonePredicate p (n + k)) ps).

(** [heap_one_deep] after a container was created under tracker 0 (its
    tracker is 1 and its slot array 1) and two views were entered, at
    indices 0 and 1 (trackers 2 and 3, arrays 2 and 3). *)
Definition heap_two_views : Heap :=
  Eval vm_compute in
    @run devEnv [OpContainer 0; OpEnterView 0 1; OpEnterView 1 1] heap_one_deep.

(** A node matched in each of two views, then a refresh of the query list:
    once with the views entered in the order of their indices, once with
    the view of index 1 entered first, at index 0, and the view of index 0
    entered before it afterwards. *)
Definition views_in_order : list op :=
  [OpContainer 0; OpEnterView 0 1; OpEnterView 1 1;
   OpAddNode (directiveNode 1 (JObj 10)) 2;
   OpAddNode (directiveNode 1 (JObj 11)) 3;
   OpQueryRefresh 0].
Definition views_out_of_order : list op :=
  [OpContainer 0; OpEnterView 0 1; OpEnterView 0 1;
   OpAddNode (directiveNode 1 (JObj 11)) 2;
   OpAddNode (directiveNode 1 (JObj 10)) 3;
   OpQueryRefresh 0].

(** Whether the view slot of a predicate at [index] holds anything. *)
Definition slot_nonempty (h : Heap) (index : Z) (p : QueryPredicate) : bool :=
  match view_slot h index p with
  | Some (_, _ :: _) => true
  | _ => false
  end.

(** The predicates of a chain have value trees of their own, each with a
    view slot at [index] that is not itself the value tree of a predicate
    of the chain, and their target lists exist. *)
Definition views_at (h : Heap) (index : Z) (ps : list QueryPredicate) : Prop :=
  NoDup (values <$> ps) ∧
  Forall (fun p => ∃ a e, view_slot h index p = Some (a, e) ∧
                          (a ∉ values <$> ps) ∧
                          is_Some (lists h !! qlist p)) ps.

(** [heap_two_views] after a node was matched in the view at index 0 and
    the query list was refreshed: the list is not dirty, the slot of view
    0 holds a value and the slot of view 1 is empty. *)
Definition heap_fresh_views : Heap :=
  Eval vm_compute in
    @run devEnv [OpAddNode (directiveNode 1 (JObj 10)) 2; OpQueryRefresh 0]
      heap_two_views.

(** [heap_one_deep] after a first container was created under tracker 0,
    and after a second one was. *)
Definition heap_first_container : Heap :=
  Eval vm_compute in @run devEnv [OpContainer 0] heap_one_deep.
Definition heap_second_container : Heap :=
  Eval vm_compute in
    @run devEnv [OpAddNode (directiveNode 1 (JObj 5)) 1; OpContainer 0]
      heap_first_container.

(** ** [child] without the reuse *)

(** The behaviour that the specification holds [child] to be
    indistinguishable from: a new tracker that carries the deep chain
    whenever there is one, also when the shallow chain is empty. *)
Definition child_always_new (this : loc) : M (option loc) :=
  t ← tracker_get this;
  match deep t with
  | [] => mret None
  | _ :: _ => Some <$> newLQueries (deep t)
  end.

Section Scenarios.
Context {env : BuildEnv}.

(** A deep query for type 1 is tracked at a parent scope, a child scope
    is obtained by [child_impl], and a shallow query for type 2 is
    tracked at the child scope.  A node with a directive of type 2 is
    then added at the parent scope.  The result is what the list of the
    shallow query holds after a refresh. *)
Definition shallow_tracked_in_child (child_impl : loc -> M (option loc))
  : M (list jsval) :=
  deepList ← QueryList.new;
  shallowList ← QueryList.new;
  parent ← newLQueries [];
  track parent deepList (inl 1) true None;;
  scope ← child_impl parent;
  match scope with
  | None => mret []
  | Some scope =>
    track scope shallowList (inl 2) false None;;
    addNode (directiveNode 2 (JObj 7)) parent;;
    queryRefresh shallowList;;
    q ← list_get shallowList;
    mret (QueryList.toArray q)
  end.

(** A deep query for type 1 is tracked at a scope, a child scope is
    obtained with [child], and only then a shallow query for type 2 is
    tracked at the first scope.  A node with a directive of type 2 is
    added at the child scope.  The result is what the list of the shallow
    query holds after a refresh. *)
Definition shallow_tracked_after_child : M (list jsval) :=
  deepList ← QueryList.new;
  shallowList ← QueryList.new;
  scope ← newLQueries [];
  track scope deepList (inl 1) true None;;
  descendant ← child scope;
  track scope shallowList (inl 2) false None;;
  match descendant with
  | None => mret []
  | Some descendant =>
    addNode (directiveNode 2 (JObj 7)) descendant;;
    queryRefresh shallowList;;
    q ← list_get shallowList;
    mret (QueryList.toArray q)
  end.

End Scenarios.

(** A view that holds a container and no match: the view is entered at
    index 0 of the container of tracker 1, a container is created inside
    it, and the query list is refreshed. *)
Definition heap_view_with_container : Heap :=
  Eval vm_compute in
    @run devEnv [OpContainer 0; OpEnterView 0 1; OpContainer 2; OpQueryRefresh 0]
      heap_one_deep.

(** ** [query] and the rest of the matcher *)

Section Query.
Context {env : BuildEnv}.

(** [query(predicate, descend, read)].  [assertPreviousIsParent] and
    [getCurrentQueries] are functions of [./instructions], the driver of
    the tree build, which is not part of this file: the check of the
    position of the driver and the tracker of the scope it is in are taken
    as parameters. *)
Definition query (assertPreviousIsParent : M unit) (getCurrentQueries : M loc)
    (predicate : TypeToken + list string) (descend : bool)
    (read : option ReadToken) : M loc :=
  dev_only assertPreviousIsParent;;
  queryList ← QueryList.new;
  queries ← getCurrentQueries;
  track queries queryList predicate descend read;;
  mret queryList.

(** The directives of a node, as its flags give them: the index of the
    first one and their number. *)
Definition directive_start (node : LNode) : Z :=
  js_shr (flags node) INDX_SHIFT.
Definition directive_size (node : LNode) : Z :=
  js_shr (js_and (flags node) SIZE_MASK) SIZE_SHIFT.

(** Whether a slot of the directive table is a public directive of the
    type looked for: the test of [geIdxOfMatchingDirective]. *)
Definition directive_matches (type : option TypeToken) (def : DirectiveDef) : bool :=
  diPublic def && bool_decide (Some (dtype def) = type).

End Query.

(** What a read function yields for the names of a selector that a node
    carries, in the order of the selector, without the [null] results. *)
Definition selector_matches (f : LNode -> Z -> jsval) (node : LNode)
    (tn : TNode) (names : list string) : list jsval :=
  filter (fun v => v ≠ JNull)
    (omap (fun name => f node <$> getIdxOfMatchingSelector tn name) names).

(** The lists of [h] are still there in [h'] with the values, the count
    of notifications and the value tree they had, and those that were
    dirty are dirty. *)
Definition lists_kept (h h' : Heap) : Prop :=
  forall l q, lists h !! l = Some q ->
    exists q', lists h' !! l = Some q' /\
               _values q' = _values q /\ changes q' = changes q /\
               _valuesTree q' = _valuesTree q /\
               (dirty q = true -> dirty q' = true).

(** Every array of [h] is still there in [h'], with the elements it had
    at its start and nothing but matched values that are not [null] after
    them. *)
Definition arrays_extended (h h' : Heap) : Prop :=
  length (arrays h') = length (arrays h) /\
  forall a vs, arrays h !! a = Some vs ->
    exists ms, arrays h' !! a = Some (vs ++ (EVal <$> ms)) /\ JNull ∉ ms.

Definition is_refresh (o : op) : bool :=
  match o with
  | OpQueryRefresh _ => true
  | _ => false
  end.

(** A node with public directives of types 1 and 2, a predicate for type
    1 that reads type 2, a predicate for the local names [a], [b] and [c]
    that reads the index stored with the name, and a node that carries
    [c] and [a]. *)
Definition twoDirectiveNode : LNode :=
  {| tData := [{| diPublic := true; dtype := 1 |};
               {| diPublic := true; dtype := 2 |}];
     data := [JObj 1; JObj 2]; flags := 8; tNode := None |}.
Definition readOtherPredicate : QueryPredicate :=
  {| qlist := 0; type := Some 1; selector := None;
     read := Some (ReadType 2); values := 0 |}.
Definition readIndex : LNode -> Z -> jsval := fun _ i => JObj (Z.to_nat i).
Definition abcPredicate : QueryPredicate :=
  {| qlist := 0; type := None;
     selector := Some ["a"%string; "b"%string; "c"%string];
     read := Some (ReadFromInjectorFn readIndex); values := 0 |}.
Definition caNode : LNode :=
  {| tData := []; data := []; flags := 0;
     tNode := Some {| localNames := Some [("c"%string, 5%Z); ("a"%string, 3%Z)] |} |}.

(** [heap_one_deep] after a second deep query for type 1 was created
    with [query] on tracker 0. *)
Definition heap_one_deep_queried : Heap :=
  Eval vm_compute in
    heap_of (@query devEnv (mret tt) (mret 0) (inl 1) true None heap_one_deep).

(** * Properties *)

(** ** Running computations *)

Lemma bind_ok {A B} (m : M A) (k : A -> M B) h a h' :
  m h = Ok a h' -> (m ≫= k) h = k a h'.
Proof. unfold mbind, M_bind. by intros ->. Qed.

Lemma bind_throw {A B} (m : M A) (k : A -> M B) h e h' :
  m h = Throw e h' -> (m ≫= k) h = Throw e h'.
Proof. unfold mbind, M_bind. by intros ->. Qed.

Lemma list_get_ok l h q : lists h !! l = Some q -> list_get l h = Ok q h.
Proof. unfold list_get. by intros ->. Qed.

Lemma arr_get_ok a h vs : arrays h !! a = Some vs -> arr_get a h = Ok vs h.
Proof. unfold arr_get. by intros ->. Qed.

Lemma tracker_get_ok t h q : trackers h !! t = Some q -> tracker_get t h = Ok q h.
Proof. unfold tracker_get. by intros ->. Qed.

Lemma setDirty_ok this h q :
  lists h !! this = Some q ->
  QueryList.setDirty this h =
  Ok tt (upd_lists (<[this := {| dirty := true; changes := changes q;
                                 _values := _values q;
                                 _valuesTree := _valuesTree q |}]>) h).
Proof.
  intros Hq. unfold QueryList.setDirty.
  by rewrite (bind_ok _ _ _ _ _ (list_get_ok _ _ _ Hq)).
Qed.

Lemma notifyOnChanges_ok this h q :
  lists h !! this = Some q ->
  QueryList.notifyOnChanges this h =
  Ok tt (upd_lists (<[this := {| dirty := dirty q; changes := S (changes q);
                                 _values := _values q;
                                 _valuesTree := _valuesTree q |}]>) h).
Proof.
  intros Hq. unfold QueryList.notifyOnChanges.
  by rewrite (bind_ok _ _ _ _ _ (list_get_ok _ _ _ Hq)).
Qed.

Lemma reset_ok this res h q vs :
  lists h !! this = Some q ->
  flatten (arrays h) res = Some vs ->
  QueryList.reset this res h =
  Ok tt (upd_lists (<[this := {| dirty := false; changes := changes q;
                                 _values := vs;
                                 _valuesTree := _valuesTree q |}]>) h).
Proof.
  intros Hq Hvs. unfold QueryList.reset. rewrite Hvs.
  by rewrite (bind_ok _ _ _ _ _ (list_get_ok _ _ _ Hq)).
Qed.

(** ** [QueryList_]: [first] and [last] *)

(** C10. On a list without values [first] and [last] are [null] (not
    [undefined], and nothing is thrown: both are total); on a list with
    values, [first] is the value at index 0 and [last] the value at the
    final index. *)
Theorem first_last_spec (q : QueryList_) :
  (_values q = [] ->
     QueryList.first q = JNull ∧ QueryList.last q = JNull ∧
     QueryList.first q ≠ JUndefined ∧ QueryList.last q ≠ JUndefined) ∧
  (_values q ≠ [] ->
     _values q !! 0 = Some (QueryList.first q) ∧
     _values q !! (length (_values q) - 1) = Some (QueryList.last q)).
Proof.
  unfold QueryList.first, QueryList.last, js_index.
  destruct (_values q) as [|v vs] eqn:E; split; try done.
  intros _. simpl. split; [done|].
  replace (Z.to_nat (Z.of_nat (S (length vs)) - 1)) with (length vs) by lia.
  replace (length vs - 0) with (length vs) by lia.
  destruct (lookup_lt_is_Some_2 (v :: vs) (length vs)) as [x Hx]; [simpl; lia|].
  rewrite Hx. simpl.
  by destruct (Z.ltb_spec (Z.of_nat (S (length vs)) - 1) 0); [lia|].
Qed.

Lemma first_last_spec_witness :
  let q := {| dirty := false; changes := 1;
              _values := [JObj 4; JObj 9; JObj 2]; _valuesTree := 0 |} in
  QueryList.first q = JObj 4 ∧ QueryList.last q = JObj 2.
Proof.
  intros q.
  destruct (first_last_spec q) as [_ H].
  destruct H as [H1 H2]; [done|].
  simpl in H1, H2. by simplify_eq.
Defined.

(** ** [child] *)

(** C8. [child] returns [null] when the deep chain is empty, the tracker
    itself when the deep chain is not empty and the shallow chain is, and
    otherwise a new tracker that carries the deep chain and no shallow
    predicate; nothing else in the heap changes. *)
Theorem child_spec (this : loc) (h : Heap) (t : LQueries_) :
  trackers h !! this = Some t ->
  (deep t = [] -> child this h = Ok None h) ∧
  (deep t ≠ [] -> shallow t = [] -> child this h = Ok (Some this) h) ∧
  (deep t ≠ [] -> shallow t ≠ [] ->
     ∃ fresh h',
       child this h = Ok (Some fresh) h' ∧
       trackers h !! fresh = None ∧
       trackers h' !! fresh = Some {| shallow := []; deep := deep t |} ∧
       (∀ l, l ≠ fresh -> trackers h' !! l = trackers h !! l) ∧
       arrays h' = arrays h ∧ lists h' = lists h).
Proof.
  intros Ht. unfold child.
  rewrite (bind_ok _ _ _ _ _ (tracker_get_ok _ _ _ Ht)).
  destruct (deep t) as [|p ps], (shallow t) as [|s ss]; repeat split; try done.
  intros _ _. eexists (length (trackers h)), _. split; [reflexivity|].
  simpl. repeat split.
  - apply lookup_ge_None_2. lia.
  - rewrite lookup_app_r by lia. by rewrite Nat.sub_diag.
  - intros l Hl. destruct (decide (l < length (trackers h))).
    + by rewrite lookup_app_l.
    + rewrite !lookup_ge_None_2; [done| lia |].
      rewrite length_app. simpl. lia.
Qed.

Lemma child_spec_witness :
  child 0 heap_one_deep = Ok (Some 0) heap_one_deep ∧
  ∃ fresh h',
    child 0 heap_deep_shallow = Ok (Some fresh) h' ∧
    trackers heap_deep_shallow !! fresh = None ∧
    shallow <$> trackers h' !! fresh = Some [].
Proof.
  split.
  - destruct (child_spec 0 heap_one_deep _ eq_refl) as (_ & H & _).
    by apply H.
  - destruct (child_spec 0 heap_deep_shallow _ eq_refl) as (_ & _ & H).
    destruct H as (fresh & h' & Hc & Hn & Hs & _); [done|done|].
    exists fresh, h'. by rewrite Hs.
Defined.

(** ** [flatten] on well-formed value trees *)

Lemma flatten_with_app rec (l1 l2 : list elem) :
  flatten_with rec (l1 ++ l2) =
  r1 ← flatten_with rec l1; r2 ← flatten_with rec l2; Some (r1 ++ r2).
Proof.
  induction l1 as [|[v|a] l1 IH]; simpl.
  - by destruct (flatten_with rec l2).
  - rewrite IH. destruct (flatten_with rec l1); simpl; [|done].
    by destruct (flatten_with rec l2).
  - destruct (rec a); simpl; [|done]. rewrite IH.
    destruct (flatten_with rec l1); simpl; [|done].
    destruct (flatten_with rec l2); simpl; [|done].
    by rewrite app_assoc.
Qed.

Lemma flatten_with_mono (rec1 rec2 : loc -> option (list jsval)) vs r :
  (∀ a x, EArr a ∈ vs -> rec1 a = Some x -> rec2 a = Some x) ->
  flatten_with rec1 vs = Some r -> flatten_with rec2 vs = Some r.
Proof.
  revert r. induction vs as [|[v|a] vs IH]; simpl; intros r Hrec Hr; [done| |].
  - destruct (flatten_with rec1 vs) as [x|] eqn:E; [|done].
    erewrite IH; [done| |done]. intros a y Ha. apply Hrec. by right.
  - destruct (rec1 a) as [x|] eqn:Ea; [|done]. simpl in Hr.
    destruct (flatten_with rec1 vs) as [y|] eqn:E; [|done].
    rewrite (Hrec a x); [|by left|done]. simpl.
    erewrite IH; [done| |done]. intros b z Hb. apply Hrec. by right.
Qed.

Lemma flatten_arr_S n A a :
  flatten_arr (S n) A a = ws ← A !! a; flatten_with (flatten_arr n A) ws.
Proof. done. Qed.

(** More fuel does not change a result. *)
Lemma flatten_arr_mono A n m a r :
  flatten_arr n A a = Some r -> n ≤ m -> flatten_arr m A a = Some r.
Proof.
  revert m a r. induction n as [|n IH]; intros m a r; [done|].
  intros Hr Hm. destruct m as [|m]; [lia|]. simpl in *.
  destruct (A !! a) as [ws|]; [|done]. simpl in *.
  eapply flatten_with_mono; [|done]. intros b x _ Hb. apply IH; [done|lia].
Qed.

(** On a well-formed tree the walk returns, with as much fuel as there is
    room above the array. *)
Lemma flatten_arr_total A n a :
  tree_ordered A -> a < length A -> length A - a ≤ n ->
  is_Some (flatten_arr n A a).
Proof.
  intros HA. revert a. induction n as [|n IH]; intros a Ha Hn; [lia|].
  rewrite flatten_arr_S.
  destruct (lookup_lt_is_Some_2 A a Ha) as [ws Hws]. rewrite Hws. simpl.
  pose proof (HA a ws Hws) as Hall. clear Hws.
  induction Hall as [|[v|b] ws Hb _ IHws]; simpl; [by eexists| |].
  - destruct IHws as [x ->]. by eexists.
  - simpl in Hb. destruct (IH b) as [x ->]; [lia|lia|]. simpl.
    destruct IHws as [y ->]. by eexists.
Qed.

Lemma flatten_total A a :
  tree_ordered A -> a < length A -> is_Some (flatten A a).
Proof. intros. apply flatten_arr_total; [done|done|lia]. Qed.

(** ** [queryRefresh] *)

Lemma queryRefresh_clean queryList h q :
  lists h !! queryList = Some q -> dirty q = false ->
  queryRefresh queryList h = Ok false h.
Proof.
  intros Hq Hd. unfold queryRefresh.
  rewrite (bind_ok _ _ _ _ _ (list_get_ok _ _ _ Hq)). by rewrite Hd.
Qed.

Lemma queryRefresh_dirty queryList h q vs :
  lists h !! queryList = Some q -> dirty q = true ->
  flatten (arrays h) (_valuesTree q) = Some vs ->
  queryRefresh queryList h =
  Ok true (upd_lists (<[queryList :=
             {| dirty := false; changes := S (changes q);
                _values := vs; _valuesTree := _valuesTree q |}]>) h).
Proof.
  intros Hq Hd Hvs. unfold queryRefresh.
  assert (Hlt : queryList < length (lists h)) by (by eapply lookup_lt_Some).
  rewrite (bind_ok _ _ _ _ _ (list_get_ok _ _ _ Hq)). rewrite Hd.
  rewrite (bind_ok _ _ _ _ _ (reset_ok _ _ _ _ _ Hq Hvs)).
  erewrite (bind_ok _ _ _ tt); cycle 1.
  { apply notifyOnChanges_ok. simpl. by apply list_lookup_insert_eq. }
  unfold upd_lists. simpl. by rewrite list_insert_insert_eq.
Qed.

(** C2. On a list that is not dirty [queryRefresh] returns [false] and
    changes nothing.  On a dirty list it returns [true], stores the
    flattened value tree in the values, clears [dirty] and notifies once;
    a second call right after it returns [false] and changes nothing, so
    two calls in a row flatten and notify exactly once. *)
Theorem queryRefresh_spec (queryList : loc) (h : Heap) (q : QueryList_) :
  lists h !! queryList = Some q ->
  tree_ordered (arrays h) ->
  _valuesTree q < length (arrays h) ->
  (dirty q = false -> queryRefresh queryList h = Ok false h) ∧
  (dirty q = true ->
     ∃ vs h',
       flatten (arrays h) (_valuesTree q) = Some vs ∧
       queryRefresh queryList h = Ok true h' ∧
       lists h' !! queryList =
         Some {| dirty := false; changes := S (changes q);
                 _values := vs; _valuesTree := _valuesTree q |} ∧
       (∀ l, l ≠ queryList -> lists h' !! l = lists h !! l) ∧
       arrays h' = arrays h ∧ trackers h' = trackers h ∧
       queryRefresh queryList h' = Ok false h').
Proof.
  intros Hq HA Htree.
  assert (Hlt : queryList < length (lists h)) by (by eapply lookup_lt_Some).
  split; intros Hd; [by eapply queryRefresh_clean|].
  destruct (flatten_total _ _ HA Htree) as [vs Hvs].
  eexists vs, _. split; [done|].
  split; [by apply queryRefresh_dirty|]. simpl.
  split; [by rewrite list_lookup_insert_eq|].
  split; [intros l Hl; by rewrite list_lookup_insert_ne|].
  split; [done|]. split; [done|].
  eapply queryRefresh_clean.
  - simpl. by apply list_lookup_insert_eq.
  - done.
Qed.

Lemma queryRefresh_spec_witness :
  ∃ h', queryRefresh 0 heap_one_match = Ok true h' ∧
        (_values <$> lists h' !! 0) = Some [JObj 7] ∧
        queryRefresh 0 h' = Ok false h'.
Proof.
  assert (Hord : tree_ordered (arrays heap_one_match)).
  { intros [|a] vs Hvs; [|done]. simpl in Hvs. simplify_eq.
    by repeat constructor. }
  destruct (queryRefresh_spec 0 heap_one_match _ eq_refl Hord) as [_ H].
  { simpl. lia. }
  destruct H as (vs & h' & Hvs & Hr & Hq & _ & _ & _ & Hr2); [done|].
  exists h'. split; [done|]. split; [|done].
  rewrite Hq. simpl. f_equal. vm_compute in Hvs. by simplify_eq.
Defined.

(** ** Matching a node: [add] *)

Arguments readFromNodeInjector : simpl never.
Arguments geIdxOfMatchingDirective : simpl never.
Arguments getIdxOfMatchingSelector : simpl never.
Arguments addMatch : simpl never.
Arguments add_one : simpl never.

Lemma lift_inr {A} (a : A) h : lift (inr a) h = Ok a h.
Proof. done. Qed.

Lemma lift_inl {A} e h : lift (A := A) (inl e) h = Throw e h.
Proof. done. Qed.

Lemma addMatch_ok (p : QueryPredicate) v h vs q :
  arrays h !! values p = Some vs ->
  lists h !! qlist p = Some q ->
  addMatch p v h =
  Ok tt {| arrays := <[values p := vs ++ [EVal v]]> (arrays h);
           lists := <[qlist p := set_dirty q]> (lists h);
           trackers := trackers h |}.
Proof.
  intros Hvs Hq. unfold addMatch, arr_push.
  rewrite (bind_ok _ _ h tt (upd_arrays (<[values p := vs ++ [EVal v]]>) h)).
  - by rewrite (setDirty_ok _ _ q).
  - by rewrite (bind_ok _ _ _ _ _ (arr_get_ok _ _ _ Hvs)).
Qed.

Section Matching.
Context {env : BuildEnv}.

(** No directive has the type [null]. *)
Lemma directive_scan_null tData i count :
  directive_scan tData None i count = inr None ∨
  directive_scan tData None i count = inl TypeError.
Proof.
  revert i. induction count as [|c IH]; intros i; simpl; [by left|].
  destruct (js_lookup tData i) as [def|]; [|by right].
  rewrite andb_false_r. apply IH.
Qed.

Lemma read_null_token node idx :
  readFromNodeInjector node None idx = inr JNull ∨
  readFromNodeInjector node None idx = inl TypeError.
Proof.
  unfold readFromNodeInjector, geIdxOfMatchingDirective.
  destruct (directive_scan_null (tData node) (js_shr (flags node) INDX_SHIFT)
    (Z.to_nat (js_shr (flags node) INDX_SHIFT +
               js_shr (js_and (flags node) SIZE_MASK) SIZE_SHIFT -
               js_shr (flags node) INDX_SHIFT))) as [-> | ->]; auto.
Qed.

(** In a development build the first name of the selector that the node
    carries stops the walk. *)
Lemma add_selector_dev_missing_read p names node h tn name idx :
  ngDevMode = true -> read p = None -> tNode node = Some tn ->
  name ∈ names -> getIdxOfMatchingSelector tn name = Some idx ->
  add_selector p names node h = Throw (AssertionError "predicate.read") h.
Proof.
  intros Hdev Hread Htn Hin Hidx.
  induction names as [|n names IH]; [by apply elem_of_nil in Hin|].
  simpl. unfold dev_only. rewrite Hdev, Htn, Hread. simpl.
  unfold mbind, M_bind. simpl.
  destruct (getIdxOfMatchingSelector tn n) as [i|] eqn:En; [done|].
  simpl. apply IH. apply elem_of_cons in Hin as [->|Hin]; [congruence|done].
Qed.

(** In a production build the walk goes on with the [null] read, which
    resolves to nothing. *)
Lemma add_selector_prod_missing_read p names node h tn :
  ngDevMode = false -> read p = None -> tNode node = Some tn ->
  add_selector p names node h = Ok tt h ∨
  add_selector p names node h = Throw TypeError h.
Proof.
  intros Hdev Hread Htn.
  induction names as [|n names IH]; [by left|].
  simpl. unfold dev_only. rewrite Hdev, Htn, Hread. simpl.
  unfold mbind, M_bind. simpl.
  destruct (getIdxOfMatchingSelector tn n) as [i|]; [|done].
  destruct (read_null_token node i) as [-> | ->]; simpl; [done|by right].
Qed.

Lemma add_selector_prod_in_range p names node h tn :
  ngDevMode = false -> read p = None -> tNode node = Some tn ->
  geIdxOfMatchingDirective node None = inr None ->
  add_selector p names node h = Ok tt h.
Proof.
  intros Hdev Hread Htn Hscan.
  induction names as [|n names IH]; [done|].
  simpl. unfold dev_only. rewrite Hdev, Htn, Hread. simpl.
  unfold mbind, M_bind. simpl.
  destruct (getIdxOfMatchingSelector tn n) as [i|]; [|done].
  unfold readFromNodeInjector. by rewrite Hscan.
Qed.

(** The chain is walked from its head. *)
Lemma add_app before after node h :
  add (before ++ after) node h = (add before node;; add after node) h.
Proof.
  revert h. induction before as [|p before IH]; intros h; [done|].
  simpl. unfold mbind, M_bind in *.
  destruct (add_one p node h) as [[] h1|e h1]; [|done]. apply IH.
Qed.

(** C3. A predicate by selector without a read strategy, evaluated on a
    node that carries one of its names: in a development build, once the
    walk of the chain reaches the predicate, it stops with the assertion
    failure on [predicate.read], before the predicate matches or changes
    anything; in a production build the check is skipped, no assertion
    fails, and the predicate matches nothing. *)
Theorem selector_without_read p next node h names tn name idx :
  type p = None -> selector p = Some names -> read p = None ->
  tNode node = Some tn ->
  name ∈ names -> getIdxOfMatchingSelector tn name = Some idx ->
  (ngDevMode = true ->
     ∀ before h0, add before node h0 = Ok tt h ->
       add (before ++ p :: next) node h0 =
         Throw (AssertionError "predicate.read") h) ∧
  (ngDevMode = false ->
     (add_one p node h = Ok tt h ∨ add_one p node h = Throw TypeError h) ∧
     (geIdxOfMatchingDirective node None = inr None ->
        add_one p node h = Ok tt h ∧ add (p :: next) node h = add next node h)).
Proof.
  intros Htype Hsel Hread Htn Hin Hidx. split; intros Hdev.
  - intros before h0 Hbefore. rewrite add_app.
    rewrite (bind_ok _ _ _ _ _ Hbefore).
    simpl. apply bind_throw. unfold add_one. rewrite Htype, Hsel.
    by eapply add_selector_dev_missing_read.
  - unfold add_one. rewrite Htype, Hsel. split.
    + by eapply add_selector_prod_missing_read.
    + intros Hscan.
      pose proof (add_selector_prod_in_range p names node h tn
                    Hdev Hread Htn Hscan) as Hok.
      split; [done|]. simpl. erewrite bind_ok; [done|].
      unfold add_one. by rewrite Htype, Hsel.
Qed.

End Matching.

Lemma selector_without_read_witness :
  @add devEnv [fooPredicate] (namedNode "foo") heap_one_deep =
    Throw (AssertionError "predicate.read") heap_one_deep ∧
  @add_one prodEnv fooPredicate (namedNode "foo") heap_one_deep =
    Ok tt heap_one_deep.
Proof.
  assert (Hin : "foo"%string ∈ ["foo"%string]) by apply list_elem_of_here.
  split.
  - destruct (@selector_without_read devEnv fooPredicate [] (namedNode "foo")
                heap_one_deep _ _ "foo" (-1)%Z
                eq_refl eq_refl eq_refl eq_refl Hin eq_refl) as [H _].
    by apply (H eq_refl [] heap_one_deep).
  - destruct (@selector_without_read prodEnv fooPredicate [] (namedNode "foo")
                heap_one_deep _ _ "foo" (-1)%Z
                eq_refl eq_refl eq_refl eq_refl Hin eq_refl) as [_ H].
    destruct H as [_ H]; [done|]. by apply H.
Defined.

(** ** What a match reads *)

Section Reading.
Context {env : BuildEnv}.

(** A type token is read by scanning the directives of the node again
    for that type. *)
Lemma read_type_token node T idx :
  geIdxOfMatchingDirective node (Some T) = inr (Some idx) ->
  readFromNodeInjector node (Some (ReadType T)) idx =
    inr (js_index JUndefined (data node) idx).
Proof. intros Hscan. unfold readFromNodeInjector. by rewrite Hscan. Qed.

Lemma add_type_null p T node h idx :
  geIdxOfMatchingDirective node (Some T) = inr (Some idx) ->
  readFromNodeInjector node (Some (default (ReadType T) (read p))) idx
    = inr JNull ->
  add_type p T node h = Ok tt h.
Proof.
  intros Hscan Hread. unfold add_type.
  rewrite Hscan. rewrite (bind_ok _ _ _ _ _ (lift_inr _ _)).
  rewrite Hread. by rewrite (bind_ok _ _ _ _ _ (lift_inr _ _)).
Qed.

Lemma add_selector_null p names node h tn :
  tNode node = Some tn -> is_Some (read p) ->
  (∀ name idx, name ∈ names ->
     getIdxOfMatchingSelector tn name = Some idx ->
     readFromNodeInjector node (read p) idx = inr JNull) ->
  add_selector p names node h = Ok tt h.
Proof.
  intros Htn [r Hr] Hnull.
  induction names as [|n names IH]; [done|].
  simpl. unfold dev_only. rewrite Htn.
  assert (Hdev : (if ngDevMode then assertNotNull (Some tn) "node.tNode"
                  else mret tt) h = Ok tt h) by (by destruct ngDevMode).
  rewrite (bind_ok _ _ _ _ _ Hdev).
  rewrite (bind_ok _ _ h tn h) by done.
  erewrite (bind_ok _ _ h tt h).
  - apply IH. intros name idx Hin. apply Hnull. by right.
  - destruct (getIdxOfMatchingSelector tn n) as [i|] eqn:En; [|done].
    assert (Hdev' : (if ngDevMode then assertNotNull (read p) "predicate.read"
                     else mret tt) h = Ok tt h).
    { rewrite Hr. by destruct ngDevMode. }
    rewrite (bind_ok _ _ _ _ _ Hdev').
    rewrite (Hnull n i); [|by left|done].
    by rewrite (bind_ok _ _ _ _ _ (lift_inr _ _)).
Qed.

(** C9. A predicate by type without a read strategy that matches the
    directives of a node reads by scanning the directives again for its
    own type and taking the instance stored at that index; that value is
    appended to the value-tree leaf and the target list becomes dirty.
    For every predicate, by type or by selector, a read that resolves to
    [null] appends nothing and leaves the heap, the dirty flag of the
    target list included, as it was. *)
Theorem add_read_resolution (p : QueryPredicate) (node : LNode) (h : Heap) :
  (∀ T idx vs q,
     type p = Some T -> read p = None ->
     geIdxOfMatchingDirective node (Some T) = inr (Some idx) ->
     arrays h !! values p = Some vs -> lists h !! qlist p = Some q ->
     let v := js_index JUndefined (data node) idx in
     readFromNodeInjector node (Some (ReadType T)) idx = inr v ∧
     (v ≠ JNull ->
        add_one p node h =
        Ok tt {| arrays := <[values p := vs ++ [EVal v]]> (arrays h);
                 lists := <[qlist p := set_dirty q]> (lists h);
                 trackers := trackers h |})) ∧
  (∀ T idx,
     type p = Some T ->
     geIdxOfMatchingDirective node (Some T) = inr (Some idx) ->
     readFromNodeInjector node (Some (default (ReadType T) (read p))) idx
       = inr JNull ->
     add_one p node h = Ok tt h) ∧
  (∀ names tn,
     type p = None -> selector p = Some names ->
     tNode node = Some tn -> is_Some (read p) ->
     (∀ name idx, name ∈ names ->
        getIdxOfMatchingSelector tn name = Some idx ->
        readFromNodeInjector node (read p) idx = inr JNull) ->
     add_one p node h = Ok tt h).
Proof.
  split; [|split].
  - intros T idx vs q HT Hr Hscan Hvs Hq v. split.
    + by apply read_type_token.
    + intros Hv. unfold add_one, add_type. rewrite HT, Hr, Hscan.
      rewrite (bind_ok _ _ _ _ _ (lift_inr _ _)).
      change (default (ReadType T) None) with (ReadType T).
      rewrite (read_type_token _ _ _ Hscan).
      rewrite (bind_ok _ _ _ _ _ (lift_inr _ _)).
      destruct (decide _) as [|_]; [done|]. by apply addMatch_ok.
  - intros T idx HT Hscan Hread. unfold add_one. rewrite HT.
    by eapply add_type_null.
  - intros names tn HT Hsel Htn Hr Hnull. unfold add_one. rewrite HT, Hsel.
    by eapply add_selector_null.
Qed.

End Reading.

Lemma add_read_resolution_witness :
  @add_one devEnv typePredicate (directiveNode 1 (JObj 7)) heap_one_deep =
    Ok tt heap_one_match ∧
  @add_one devEnv typePredicate (directiveNode 1 JNull) heap_one_deep =
    Ok tt heap_one_deep ∧
  @add_one devEnv nullReadPredicate (namedNode "foo") heap_one_deep =
    Ok tt heap_one_deep.
Proof.
  split; [|split].
  - destruct (@add_read_resolution devEnv typePredicate
                (directiveNode 1 (JObj 7)) heap_one_deep) as (H & _ & _).
    destruct (H 1 0%Z [] _ eq_refl eq_refl eq_refl eq_refl eq_refl) as [_ Hadd].
    by rewrite Hadd.
  - destruct (@add_read_resolution devEnv typePredicate
                (directiveNode 1 JNull) heap_one_deep) as (_ & H & _).
    by apply (H 1 0%Z).
  - destruct (@add_read_resolution devEnv nullReadPredicate
                (namedNode "foo") heap_one_deep) as (_ & _ & H).
    eapply H; [done|done|done|by eexists|done].
Defined.

(** ** The cloning loops of [container] and [enterView] *)

Lemma container_loop_clone ps acc h :
  container_loop ps acc h =
  _clonePredicates_loop (insert_clone push_elem) ps acc h.
Proof.
  revert acc h. induction ps as [|p ps IH]; intros acc h; [done|].
  simpl. unfold insert_clone, arr_push, mbind, M_bind, arr_new, arr_get, arr_set.
  simpl. destruct (_ !! values p); simpl; [apply IH|done].
Qed.

Lemma enterView_loop_clone index ps acc h :
  enterView_loop index ps acc h =
  _clonePredicates_loop (insert_clone (splice_insert index)) ps acc h.
Proof.
  revert acc h. induction ps as [|p ps IH]; intros acc h; [done|].
  simpl. unfold insert_clone, mbind, M_bind, arr_new, arr_get, arr_set.
  simpl. destruct (_ !! values p); simpl; [apply IH|done].
Qed.

Lemma clones_at_cons n p ps :
  clones_at n (p :: ps) = clones_at (S n) ps ++ [clonePredicate p n].
Proof.
  unfold clones_at. simpl. rewrite reverse_cons, Nat.add_0_r. f_equal. f_equal.
  apply imap_ext. intros k q _. simpl. f_equal. lia.
Qed.

Lemma clones_at_length n ps : length (clones_at n ps) = length ps.
Proof. unfold clones_at. by rewrite length_reverse, length_imap. Qed.

(** The value tree of every clone is an array allocated by the loop. *)
Lemma clones_at_values n ps c :
  c ∈ clones_at n ps -> n <= values c < n + length ps.
Proof.
  unfold clones_at. rewrite elem_of_reverse. intros Hc.
  apply list_elem_of_lookup in Hc as [k Hk].
  apply list_lookup_imap_Some in Hk as (p & Hp & ->).
  apply lookup_lt_Some in Hp. simpl. lia.
Qed.

(** A clone differs from its predicate in the value tree only. *)
Lemma clones_at_fields n ps c :
  c ∈ clones_at n ps ->
  ∃ p, p ∈ ps ∧ qlist c = qlist p ∧ type c = type p ∧
       selector c = selector p ∧ read c = read p.
Proof.
  unfold clones_at. rewrite elem_of_reverse. intros Hc.
  apply list_elem_of_lookup in Hc as [k Hk].
  apply list_lookup_imap_Some in Hk as (p & Hp & ->).
  exists p. split; [|done]. by eapply list_elem_of_lookup_2.
Qed.

Lemma insert_clone_ok ins p h vs :
  arrays h !! values p = Some vs ->
  insert_clone ins p h =
  Ok (clonePredicate p (length (arrays h)))
     {| arrays := <[values p := ins (EArr (length (arrays h))) vs]>
                    (arrays h ++ [[]]);
        lists := lists h; trackers := trackers h |}.
Proof.
  intros Hvs. unfold insert_clone, mbind, M_bind, arr_new, arr_get, arr_set.
  simpl. by rewrite (lookup_app_l_Some _ _ _ _ Hvs).
Qed.

Lemma insert_clone_inv ins p h c h' :
  insert_clone ins p h = Ok c h' ->
  c = clonePredicate p (length (arrays h)) ∧
  length (arrays h') = S (length (arrays h)) ∧
  lists h' = lists h ∧ trackers h' = trackers h.
Proof.
  unfold insert_clone, mbind, M_bind, arr_new, arr_get, arr_set. simpl.
  destruct (_ !! values p); simpl; [|done]. intros [= <- <-]. simpl.
  rewrite length_insert, length_app. simpl. repeat split. lia.
Qed.

(** Whenever the loop returns, it returns the clones in reverse order, each
    with an array of its own, and has allocated nothing else. *)
Lemma clone_loop_shape ins ps acc h res h' :
  _clonePredicates_loop (insert_clone ins) ps acc h = Ok res h' ->
  res = clones_at (length (arrays h)) ps ++ acc ∧
  length (arrays h') = length (arrays h) + length ps ∧
  lists h' = lists h ∧ trackers h' = trackers h.
Proof.
  revert acc h. induction ps as [|p ps IH]; intros acc h; simpl.
  - intros [= <- <-]. split; [done|]. split; [lia|done].
  - unfold mbind, M_bind.
    destruct (insert_clone ins p h) as [c h1|] eqn:E; [|done].
    apply insert_clone_inv in E as (-> & Hlen & Hl & Ht).
    intros Hloop. apply IH in Hloop as (-> & Hlen' & Hl' & Ht').
    rewrite clones_at_cons, <- app_assoc, Hlen. simpl.
    split; [done|]. split; [lia|]. split; congruence.
Qed.

(** When the predicates of the chain have value trees of their own, the
    loop returns, and puts into each the array of its clone. *)
Lemma clone_loop_contents ins ps acc h :
  NoDup ((values <$> ps)) ->
  Forall (fun p => values p < length (arrays h)) ps ->
  ∃ h',
    _clonePredicates_loop (insert_clone ins) ps acc h =
      Ok (clones_at (length (arrays h)) ps ++ acc) h' ∧
    (∀ k p, ps !! k = Some p ->
       ∃ vs, arrays h !! values p = Some vs ∧
             arrays h' !! values p =
               Some (ins (EArr (length (arrays h) + k)) vs) ∧
             arrays h' !! (length (arrays h) + k) = Some []) ∧
    (∀ a, a < length (arrays h) -> a ∉ (values <$> ps) ->
       arrays h' !! a = arrays h !! a).
Proof.
  revert acc h. induction ps as [|p ps IH]; intros acc h Hnd Hall.
  { exists h. by repeat split. }
  apply NoDup_cons in Hnd as [Hp Hnd]. apply Forall_cons in Hall as [Hlt Hall].
  destruct (lookup_lt_is_Some_2 _ _ Hlt) as [vs Hvs].
  set (h1 := {| arrays := <[values p := ins (EArr (length (arrays h))) vs]>
                            (arrays h ++ [[]]);
                lists := lists h; trackers := trackers h |}).
  assert (Hlen1 : length (arrays h1) = S (length (arrays h))).
  { simpl. rewrite length_insert, length_app. simpl. lia. }
  destruct (IH (clonePredicate p (length (arrays h)) :: acc) h1 Hnd)
    as (h' & Hloop & Hin & Hout).
  { eapply Forall_impl; [done|]. intros q Hq. simpl in Hq. lia. }
  exists h'. split; [|split].
  - simpl. rewrite (bind_ok _ _ _ _ _ (insert_clone_ok ins p h vs Hvs)).
    fold h1. rewrite Hloop, Hlen1, clones_at_cons, <- app_assoc. done.
  - intros [|k] q Hq; simpl in Hq.
    + simplify_eq. exists vs. split; [done|].
      rewrite Nat.add_0_r.
      rewrite !Hout; [|lia| |lia|done].
      * split.
        -- simpl. rewrite list_lookup_insert_eq; [done|].
           rewrite length_app. simpl. lia.
        -- simpl. rewrite list_lookup_insert_ne by lia.
           rewrite lookup_app_r by lia. by rewrite Nat.sub_diag.
      * intros Hin'. apply list_elem_of_fmap in Hin' as (q' & Hq & Hq').
        rewrite Forall_forall in Hall. specialize (Hall q' Hq'). lia.
    + destruct (Hin k q Hq) as (ws & Hws & Hws' & Hnew).
      assert (Hne : values q ≠ values p).
      { intros Heq. apply Hp. rewrite <- Heq. apply list_elem_of_fmap_2.
        by eapply list_elem_of_lookup_2. }
      assert (Hqlt : values q < length (arrays h)).
      { rewrite Forall_forall in Hall. apply Hall.
        by eapply list_elem_of_lookup_2. }
      exists ws. rewrite Hlen1 in Hws', Hnew.
      replace (length (arrays h) + S k) with (S (length (arrays h)) + k) by lia.
      split; [|done].
      simpl in Hws. rewrite list_lookup_insert_ne in Hws by done.
      by rewrite lookup_app_l in Hws.
  - intros a Ha Hnotin. rewrite fmap_cons, not_elem_of_cons in Hnotin.
    destruct Hnotin as [Hap Hnotin].
    rewrite Hout; [|lia|done]. simpl.
    rewrite list_lookup_insert_ne by done. by rewrite lookup_app_l.
Qed.

(** ** [enterView] *)

Lemma splice_start_in_range (index : Z) (len : nat) :
  (0 <= index <= Z.of_nat len)%Z -> splice_start index len = Z.to_nat index.
Proof.
  intros Hi. unfold splice_start.
  destruct (Z.ltb_spec index 0); [lia|]. f_equal. lia.
Qed.

Lemma splice_insert_in_range {A} (index : Z) (x : A) (l : list A) :
  (0 <= index <= Z.of_nat (length l))%Z ->
  splice_insert index x l =
    take (Z.to_nat index) l ++ x :: drop (Z.to_nat index) l.
Proof. intros Hi. unfold splice_insert. by rewrite splice_start_in_range. Qed.

Lemma flatten_unfold A c :
  flatten A c = ws ← A !! c; flatten_elems A ws.
Proof. done. Qed.

(** The values of a slot sit between the values of the slots before it
    and the values of the slots after it. *)
Lemma flatten_slot A c before a after r :
  A !! c = Some (before ++ EArr a :: after) ->
  flatten A c = Some r ->
  ∃ r1 ra r2,
    r = r1 ++ ra ++ r2 ∧
    flatten_elems A before = Some r1 ∧
    flatten A a = Some ra ∧
    flatten_elems A after = Some r2.
Proof.
  intros Hc. rewrite flatten_unfold, Hc. simpl. unfold flatten_elems.
  rewrite flatten_with_app. simpl.
  destruct (flatten_with _ before) as [r1|]; [|done]. simpl.
  destruct (flatten_arr _ A a) as [ra|] eqn:Ea; [|done]. simpl.
  destruct (flatten_with _ after) as [r2|]; [|done]. simpl.
  intros [= <-]. exists r1, ra, r2. repeat split.
  eapply flatten_arr_mono; [done|lia].
Qed.

Lemma new_tracker_for (res : list QueryPredicate) h :
  res ≠ [] ->
  (match res with
   | [] => mret None
   | _ :: _ => Some <$> newLQueries res
   end) h =
  Ok (Some (length (trackers h)))
     (upd_trackers (.++ [{| shallow := []; deep := res |}]) h).
Proof. by destruct res. Qed.

(** What one call of [enterView] does. *)
Lemma enterView_call (index : Z) (this : loc) (h : Heap) (t : LQueries_) :
  trackers h !! this = Some t ->
  deep t ≠ [] ->
  NoDup (values <$> deep t) ->
  Forall (fun p => values p < length (arrays h)) (deep t) ->
  ∃ fresh h',
    enterView index this h = Ok (Some fresh) h' ∧
    trackers h !! fresh = None ∧
    trackers h' !! fresh =
      Some {| shallow := []; deep := clones_at (length (arrays h)) (deep t) |} ∧
    ∀ k p, deep t !! k = Some p ->
      let a := length (arrays h) + k in
      ∃ vs,
        clonePredicate p a ∈ clones_at (length (arrays h)) (deep t) ∧
        arrays h !! values p = Some vs ∧
        arrays h !! a = None ∧
        arrays h' !! a = Some [] ∧
        arrays h' !! values p = Some (splice_insert index (EArr a) vs) ∧
        ((0 <= index <= Z.of_nat (length vs))%Z ->
           let before := take (Z.to_nat index) vs in
           let after := drop (Z.to_nat index) vs in
           arrays h' !! values p = Some (before ++ EArr a :: after) ∧
           (before ++ EArr a :: after) !! Z.to_nat index = Some (EArr a) ∧
           ∀ H r,
             arrays H !! values p = Some (before ++ EArr a :: after) ->
             flatten (arrays H) (values p) = Some r ->
             ∃ r1 ra r2,
               r = r1 ++ ra ++ r2 ∧
               flatten_elems (arrays H) before = Some r1 ∧
               flatten (arrays H) a = Some ra ∧
               flatten_elems (arrays H) after = Some r2).
Proof.
  intros Ht Hne Hnd Hall.
  destruct (clone_loop_contents (splice_insert index) (deep t) [] h Hnd Hall)
    as (h1 & Hloop & Hin & _).
  pose proof (clone_loop_shape _ _ _ _ _ _ Hloop) as (_ & _ & _ & Htr).
  rewrite app_nil_r in Hloop.
  assert (Hres : clones_at (length (arrays h)) (deep t) ≠ []).
  { intros Hnil. apply (f_equal length) in Hnil.
    rewrite clones_at_length in Hnil. by destruct (deep t). }
  exists (length (trackers h)),
    (upd_trackers (.++ [{| shallow := [];
                           deep := clones_at (length (arrays h)) (deep t) |}]) h1).
  split; [|split; [|split]].
  - unfold enterView. rewrite (bind_ok _ _ _ _ _ (tracker_get_ok _ _ _ Ht)).
    erewrite bind_ok; [|by rewrite enterView_loop_clone].
    rewrite new_tracker_for by done. by rewrite Htr.
  - apply lookup_ge_None_2. lia.
  - simpl. rewrite Htr, lookup_app_r by lia. by rewrite Nat.sub_diag.
  - intros k p Hp a. destruct (Hin k p Hp) as (vs & Hvs & Hvs' & Hnew).
    exists vs. simpl. repeat split; try done.
    + unfold clones_at. apply elem_of_reverse, list_elem_of_lookup.
      exists k. by rewrite list_lookup_imap, Hp.
    + apply lookup_ge_None_2. unfold a. lia.
    + by rewrite <- splice_insert_in_range.
    + rewrite lookup_app_r; rewrite length_take; [|lia].
      by replace (Z.to_nat index - Z.to_nat index `min` length vs) with 0 by lia.
    + intros H' r. apply flatten_slot.
Qed.


Lemma flatten_elems_slot A before a after r :
  flatten_elems A (before ++ EArr a :: after) = Some r ->
  ∃ r1 ra r2,
    r = r1 ++ ra ++ r2 ∧
    flatten_elems A before = Some r1 ∧
    flatten A a = Some ra ∧
    flatten_elems A after = Some r2.
Proof.
  unfold flatten_elems. rewrite flatten_with_app. simpl.
  destruct (flatten_with _ before) as [r1|]; [|done]. simpl.
  destruct (flatten_arr _ A a) as [ra|] eqn:Ea; [|done]. simpl.
  destruct (flatten_with _ after) as [r2|]; [|done]. simpl.
  intros [= <-]. exists r1, ra, r2. repeat split.
  eapply flatten_arr_mono; [done|lia].
Qed.

(** Flattening follows the positions: the values of the slot at a lower
    position come before the values of the slot at a higher one. *)
Lemma flatten_order A c vs i j a b r :
  A !! c = Some vs -> i < j ->
  vs !! i = Some (EArr a) -> vs !! j = Some (EArr b) ->
  flatten A c = Some r ->
  ∃ r1 ra r2 rb r3,
    r = r1 ++ ra ++ r2 ++ rb ++ r3 ∧
    flatten A a = Some ra ∧ flatten A b = Some rb.
Proof.
  intros Hc Hij Hi Hj Hr.
  rewrite <- (take_drop_middle vs i (EArr a) Hi) in Hc.
  destruct (flatten_slot _ _ _ _ _ _ Hc Hr) as (r1 & ra & rest & -> & _ & Ha & Hrest).
  assert (Hj' : drop (S i) vs !! (j - S i) = Some (EArr b)).
  { rewrite lookup_drop. by replace (S i + (j - S i)) with j by lia. }
  rewrite <- (take_drop_middle _ _ _ Hj') in Hrest.
  apply flatten_elems_slot in Hrest as (r2 & rb & r3 & -> & _ & Hb & _).
  by exists r1, ra, r2, rb, r3.
Qed.

(** The heap that a call of [enterView] leaves. *)
Lemma enterView_heap index this h t :
  trackers h !! this = Some t ->
  NoDup (values <$> deep t) ->
  valid_chain h (deep t) ->
  let h1 := heap_of (enterView index this h) in
  trackers h1 !! this = Some t ∧
  length (arrays h1) = length (arrays h) + length (deep t) ∧
  (∀ k p, deep t !! k = Some p ->
     ∃ vs, arrays h !! values p = Some vs ∧
           arrays h1 !! values p =
             Some (splice_insert index (EArr (length (arrays h) + k)) vs) ∧
           arrays h1 !! (length (arrays h) + k) = Some []) ∧
  (∀ a, a < length (arrays h) -> a ∉ values <$> deep t ->
     arrays h1 !! a = arrays h !! a).
Proof.
  intros Ht Hnd Hall.
  destruct (clone_loop_contents (splice_insert index) (deep t) [] h Hnd Hall)
    as (h' & Hloop & Hin & Hout).
  pose proof (clone_loop_shape _ _ _ _ _ _ Hloop) as (_ & Hlen & _ & Htr).
  rewrite app_nil_r in Hloop.
  assert (Hrun : ∃ r T, enterView index this h =
            Ok r {| arrays := arrays h'; lists := lists h';
                    trackers := trackers h ++ T |}).
  { unfold enterView. rewrite (bind_ok _ _ _ _ _ (tracker_get_ok _ _ _ Ht)).
    erewrite bind_ok; [|by rewrite enterView_loop_clone].
    destruct (clones_at _ _) as [|c cs].
    - exists None, []. simpl. rewrite app_nil_r, <- Htr. by destruct h'.
    - eexists _, _.
      unfold fmap, M_fmap, newLQueries, tracker_new, mbind, M_bind, upd_trackers.
      simpl. rewrite Htr. reflexivity. }
  destruct Hrun as (r & T & ->). simpl.
  split; [by apply lookup_app_l_Some|]. done.
Qed.

Section EnterViews.
Context {env : BuildEnv}.

(** The heap that a sequence of [enterView] calls on one tracker leaves. *)
Lemma enterView_sequence idxs this h t :
  trackers h !! this = Some t ->
  NoDup (values <$> deep t) ->
  valid_chain h (deep t) ->
  let h' := run ((fun idx => OpEnterView idx this) <$> idxs) h in
  length (arrays h') = length (arrays h) + length idxs * length (deep t) ∧
  (∀ k p, deep t !! k = Some p ->
     ∃ vs, arrays h !! values p = Some vs ∧
           arrays h' !! values p =
             Some (views_after (length (arrays h)) (length (deep t)) k idxs vs)) ∧
  (∀ a, a < length (arrays h) -> a ∉ values <$> deep t ->
     arrays h' !! a = arrays h !! a) ∧
  (∀ a, length (arrays h) <= a < length (arrays h') ->
     arrays h' !! a = Some []).
Proof.
  revert h. induction idxs as [|idx idxs IH]; intros h Ht Hnd Hall; simpl;
    [|change (list_fmap Z op (λ idx0 : Z, OpEnterView idx0 this) idxs)
        with ((λ idx0 : Z, OpEnterView idx0 this) <$> idxs)].
  { split; [lia|]. split; [|split; [done|intros a; lia]].
    intros k p Hp. unfold valid_chain in Hall. rewrite Forall_forall in Hall.
    destruct (lookup_lt_is_Some_2 (arrays h) (values p)) as [vs Hvs].
    { apply Hall. by eapply list_elem_of_lookup_2. }
    by exists vs. }
  destruct (enterView_heap idx this h t Ht Hnd Hall)
    as (Ht1 & Hlen1 & Hin1 & Hout1).
  set (h1 := heap_of (enterView idx this h)) in *.
  assert (Hall1 : valid_chain h1 (deep t)).
  { unfold valid_chain in *. eapply Forall_impl; [done|].
    intros p Hp. simpl in Hp. lia. }
  destruct (IH h1 Ht1 Hnd Hall1) as (Hlen & Hin & Hout & Hnew).
  assert (Hold : ∀ p, p ∈ deep t -> values p < length (arrays h)).
  { unfold valid_chain in Hall. by rewrite Forall_forall in Hall. }
  split; [lia|]. split; [|split].
  - intros k p Hp. destruct (Hin1 k p Hp) as (vs & Hvs & Hvs1 & _).
    destruct (Hin k p Hp) as (vs1 & Hvs1' & Hvs').
    exists vs. split; [done|]. rewrite Hvs'. rewrite Hvs1 in Hvs1'.
    simplify_eq. by rewrite Hlen1.
  - intros a Ha Hnot. rewrite Hout; [by apply Hout1|lia|done].
  - intros a Ha. destruct (decide (a < length (arrays h1))) as [Hlt|Hge].
    + rewrite Hout; [|done|].
      * destruct (lookup_lt_is_Some_2 (deep t) (a - length (arrays h)))
          as [p Hp]; [lia|].
        destruct (Hin1 _ p Hp) as (vs & _ & _ & Hempty).
        by replace (length (arrays h) + (a - length (arrays h))) with a
          in Hempty by lia.
      * intros Hin'. apply list_elem_of_fmap in Hin' as (p & -> & Hp).
        specialize (Hold p Hp). lia.
    + apply Hnew. lia.
Qed.

(** C7. [enterView(index)] gives every deep predicate a clone with a new,
    empty array of its own and puts that array into the value tree of the
    predicate where [splice] starts: for an index within the tree, at
    position [index], the entries from that position on moving up by one
    ([container] pushes the array at the end instead).  After any sequence
    of such calls the value tree holds the new arrays in the order that
    inserting each at its index gives, whatever the order of the calls,
    and flattening goes by position: the values of a view at a lower
    position come before the values of a view at a higher one. *)
Theorem enterView_spec (index : Z) (this : loc) (h : Heap) (t : LQueries_) :
  trackers h !! this = Some t ->
  deep t ≠ [] ->
  NoDup (values <$> deep t) ->
  valid_chain h (deep t) ->
  (∃ fresh h',
     enterView index this h = Ok (Some fresh) h' ∧
     trackers h' !! fresh =
       Some {| shallow := []; deep := clones_at (length (arrays h)) (deep t) |} ∧
     ∀ k p, deep t !! k = Some p ->
       let a := length (arrays h) + k in
       ∃ vs,
         clonePredicate p a ∈ clones_at (length (arrays h)) (deep t) ∧
         arrays h !! values p = Some vs ∧
         arrays h !! a = None ∧
         arrays h' !! a = Some [] ∧
         arrays h' !! values p = Some (splice_insert index (EArr a) vs) ∧
         ((0 <= index <= Z.of_nat (length vs))%Z ->
            let before := take (Z.to_nat index) vs in
            let after := drop (Z.to_nat index) vs in
            arrays h' !! values p = Some (before ++ EArr a :: after) ∧
            (before ++ EArr a :: after) !! Z.to_nat index = Some (EArr a))) ∧
  (∀ idxs k p, deep t !! k = Some p ->
     let h' := run ((fun idx => OpEnterView idx this) <$> idxs) h in
     ∃ vs,
       arrays h !! values p = Some vs ∧
       arrays h' !! values p =
         Some (views_after (length (arrays h)) (length (deep t)) k idxs vs) ∧
       (∀ a, length (arrays h) <= a < length (arrays h') ->
          arrays h' !! a = Some [])) ∧
  (∀ H p vs i j a b r,
     p ∈ deep t -> arrays H !! values p = Some vs -> i < j ->
     vs !! i = Some (EArr a) -> vs !! j = Some (EArr b) ->
     flatten (arrays H) (values p) = Some r ->
     ∃ r1 ra r2 rb r3,
       r = r1 ++ ra ++ r2 ++ rb ++ r3 ∧
       flatten (arrays H) a = Some ra ∧ flatten (arrays H) b = Some rb).
Proof.
  intros Ht Hne Hnd Hall. split; [|split].
  - destruct (enterView_call index this h t Ht Hne Hnd Hall)
      as (fresh & h' & Hrun & _ & Hfresh & Hp).
    exists fresh, h'. split; [done|]. split; [done|].
    intros k p Hk a. destruct (Hp k p Hk) as (vs & Hc & Hvs & Hn & He & Hi & Hr).
    exists vs. repeat (split; [done|]).
    intros Hrange. destruct (Hr Hrange) as (H1 & H2 & _). done.
  - intros idxs k p Hk h'.
    destruct (enterView_sequence idxs this h t Ht Hnd Hall)
      as (_ & Hin & _ & Hnew).
    destruct (Hin k p Hk) as (vs & Hvs & Hvs'). by exists vs.
  - intros H p vs i j a b r _. apply flatten_order.
Qed.

End EnterViews.

Lemma enterView_spec_witness :
  (∃ fresh h',
     enterView 1 1 heap_two_views = Ok (Some fresh) h' ∧
     arrays h' !! 1 = Some [EArr 2; EArr 4; EArr 3] ∧
     arrays h' !! 4 = Some []) ∧
  arrays (@run devEnv [OpEnterView 0 1; OpEnterView 0 1; OpEnterView 1 1]
            heap_first_container) !! 1
    = Some [EArr 3; EArr 4; EArr 2].
Proof.
  assert (Hnd : NoDup (values <$> [
     {| qlist := 0; type := Some 1; selector := None; read := None;
        values := 1 |}])) by apply NoDup_singleton.
  split.
  - destruct (@enterView_spec devEnv 1 1 heap_two_views _ eq_refl)
      as ((fresh & h' & He & _ & Hp) & _); [done|done|by repeat constructor|].
    destruct (Hp 0 _ eq_refl) as (vs & _ & Hvs & _ & Hnew & _ & Hpos).
    simpl in Hvs. simplify_eq.
    destruct Hpos as (Hins & _); [simpl; lia|].
    exists fresh, h'. done.
  - destruct (@enterView_spec devEnv 0 1 heap_first_container _ eq_refl)
      as (_ & Hseq & _); [done|done|by repeat constructor|].
    destruct (Hseq [0; 0; 1]%Z 0 _ eq_refl) as (vs & Hvs & Hvs' & _).
    simpl in Hvs. simplify_eq. exact Hvs'.
Defined.

(** The two orders of entering the views give the same values, those of
    the view at index 0 first. *)
Example enterView_issue_order :
  _values <$> lists (@run devEnv views_in_order heap_one_deep) !! 0
    = Some [JObj 10; JObj 11] ∧
  _values <$> lists (@run devEnv views_out_of_order heap_one_deep) !! 0
    = Some [JObj 10; JObj 11].
Proof. split; reflexivity. Qed.


(** ** [removeView] *)

Lemma view_slot_Some h index p a e :
  view_slot h index p = Some (a, e) <->
  ∃ vs, arrays h !! values p = Some vs ∧ (0 <= index)%Z ∧
        vs !! Z.to_nat index = Some (EArr a) ∧ arrays h !! a = Some e.
Proof.
  unfold view_slot. split.
  - destruct (arrays h !! values p) as [vs|]; simpl; [|done].
    destruct (Z.ltb_spec index 0); simpl; [done|].
    destruct (vs !! Z.to_nat index) as [[v|b]|] eqn:Ei; simpl; [done| |done].
    destruct (arrays h !! b) as [e'|] eqn:Eb; simpl; [|done].
    intros [= -> ->]. by exists vs.
  - intros (vs & -> & Hi & Hvs & He). simpl.
    destruct (Z.ltb_spec index 0); [lia|]. simpl. rewrite Hvs. simpl.
    by rewrite He.
Qed.

Lemma splice_remove_in_range {A} (index : Z) (l : list A) x :
  (0 <= index)%Z -> l !! Z.to_nat index = Some x ->
  splice_remove index l = ([x], delete (Z.to_nat index) l).
Proof.
  intros Hi Hx. unfold splice_remove.
  pose proof (lookup_lt_Some _ _ _ Hx) as Hlt.
  rewrite splice_start_in_range by lia.
  rewrite delete_take_drop. f_equal.
  by rewrite (drop_S _ _ _ Hx).
Qed.

Arguments splice_remove : simpl never.

Section RemoveView.
Context {env : BuildEnv}.

(** One turn of the loop, on a predicate whose slot at [index] is the
    array [a] with the contents [e]. *)
Lemma removeView_turn index p next h vs a e q :
  arrays h !! values p = Some vs -> (0 <= index)%Z ->
  vs !! Z.to_nat index = Some (EArr a) -> a ≠ values p ->
  arrays h !! a = Some e -> lists h !! qlist p = Some q ->
  removeView_loop index (p :: next) h =
  removeView_loop index next
    {| arrays := <[values p := delete (Z.to_nat index) vs]> (arrays h);
       lists := if decide (e = []) then lists h
                else <[qlist p := set_dirty q]> (lists h);
       trackers := trackers h |}.
Proof.
  intros Hvs Hi Hslot Hne He Hq. simpl.
  rewrite (bind_ok _ _ _ _ _ (arr_get_ok _ _ _ Hvs)).
  pose proof (splice_remove_in_range _ _ _ Hi Hslot) as Hsp.
  unfold splice_remove in Hsp. injection Hsp as Hrem Hrest.
  rewrite Hrem, Hrest.
  unfold arr_set at 1. unfold mbind at 1. unfold M_bind at 1.
  erewrite (bind_ok _ _ _ tt); [|unfold dev_only; by destruct ngDevMode].
  erewrite (bind_ok _ _ _ (length e)); cycle 1.
  { simpl. erewrite bind_ok; [reflexivity|]. apply arr_get_ok. simpl.
    by rewrite list_lookup_insert_ne. }
  destruct e as [|x e]; simpl.
  - done.
  - erewrite (bind_ok _ _ _ tt); cycle 1.
    { by apply (setDirty_ok _ _ q). }
    done.
Qed.

Lemma set_dirty_idemp q : set_dirty (set_dirty q) = set_dirty q.
Proof. done. Qed.

(** The loop on a chain of predicates with view slots at [index]. *)
Lemma removeView_loop_views index ps h :
  views_at h index ps ->
  ∃ h',
    removeView_loop index ps h = Ok tt h' ∧
    trackers h' = trackers h ∧
    (∀ a, a ∉ values <$> ps -> arrays h' !! a = arrays h !! a) ∧
    (∀ p vs, p ∈ ps -> arrays h !! values p = Some vs ->
       arrays h' !! values p = Some (delete (Z.to_nat index) vs)) ∧
    (∀ l q, lists h !! l = Some q ->
       lists h' !! l = Some q ∨ lists h' !! l = Some (set_dirty q)) ∧
    (∀ p, p ∈ ps -> slot_nonempty h index p = true ->
       is_dirty h' (qlist p) = Some true) ∧
    (∀ l, (∀ p, p ∈ ps -> qlist p = l -> slot_nonempty h index p = false) ->
       lists h' !! l = lists h !! l).
Proof.
  revert h. induction ps as [|p ps IH]; intros h [Hnd Hall].
  { exists h. split; [done|]. split; [done|]. split; [done|].
    split; [intros p vs Hp; by apply elem_of_nil in Hp|].
    split; [intros; by left|].
    split; [intros p Hp; by apply elem_of_nil in Hp|done]. }
  rewrite fmap_cons in Hnd. apply NoDup_cons in Hnd as [Hp Hnd].
  apply Forall_cons in Hall as [(a & e & Hslot & Ha & [q Hq]) Hall].
  rewrite fmap_cons, not_elem_of_cons in Ha. destruct Ha as [Hap Ha].
  pose proof Hslot as Hslot'.
  apply view_slot_Some in Hslot' as (vs & Hvs & Hi & Hvi & He).
  set (h1 := {| arrays := <[values p := delete (Z.to_nat index) vs]> (arrays h);
                lists := if decide (e = []) then lists h
                         else <[qlist p := set_dirty q]> (lists h);
                trackers := trackers h |}).
  assert (Hsame : ∀ p', p' ∈ ps -> ∀ x,
            view_slot h index p' = Some x -> view_slot h1 index p' = Some x).
  { intros p' Hp' [a' e'] Hs.
    rewrite Forall_forall in Hall.
    destruct (Hall p' Hp') as (a2 & e2 & Hs2 & Ha2 & _).
    rewrite Hs in Hs2. simplify_eq.
    rewrite fmap_cons, not_elem_of_cons in Ha2. destruct Ha2 as [Ha2 _].
    apply view_slot_Some in Hs as (ws & Hws & ? & Hwi & He2).
    apply view_slot_Some. exists ws. simpl.
    rewrite !list_lookup_insert_ne; [done|done|].
    intros Heq. apply Hp. rewrite Heq. by apply list_elem_of_fmap_2. }
  assert (Hne : ∀ p', p' ∈ ps ->
            slot_nonempty h1 index p' = slot_nonempty h index p').
  { intros p' Hp'. rewrite Forall_forall in Hall.
    destruct (Hall p' Hp') as (a2 & e2 & Hs2 & _).
    unfold slot_nonempty. by rewrite (Hsame p' Hp' _ Hs2), Hs2. }
  assert (Hl1 : ∀ l q0, lists h !! l = Some q0 ->
            lists h1 !! l = Some q0 ∨ lists h1 !! l = Some (set_dirty q0)).
  { intros l q0 Hq0. simpl. destruct (decide (e = [])); [by left|].
    destruct (decide (l = qlist p)) as [->|].
    - right. rewrite list_lookup_insert_eq by (by eapply lookup_lt_Some).
      congruence.
    - left. by rewrite list_lookup_insert_ne. }
  destruct (IH h1) as (h' & Hloop & Htr & Hframe & Hcont & Hmono & Hdirty & Hkeep).
  { split; [done|]. rewrite Forall_forall in Hall |- *.
    intros p' Hp'. destruct (Hall p' Hp') as (a2 & e2 & Hs2 & Ha2 & [q2 Hq2]).
    exists a2, e2. split; [by apply Hsame|].
    rewrite fmap_cons, not_elem_of_cons in Ha2. split; [by destruct Ha2|].
    destruct (Hl1 _ _ Hq2) as [-> | ->]; by eexists. }
  exists h'. split; [|split; [|split; [|split; [|split; [|split]]]]].
  - by rewrite (removeView_turn index p ps h vs a e q).
  - done.
  - intros a0 Ha0. rewrite fmap_cons, not_elem_of_cons in Ha0.
    destruct Ha0 as [Ha0 Ha0']. rewrite (Hframe a0 Ha0'). simpl.
    by rewrite list_lookup_insert_ne.
  - intros p0 vs0 Hp0 Hvs0. apply elem_of_cons in Hp0 as [->|Hp0].
    + rewrite (Hframe _ Hp). simpl. simplify_eq.
      rewrite list_lookup_insert_eq; [done|]. by eapply lookup_lt_Some.
    + apply Hcont; [done|]. simpl. rewrite list_lookup_insert_ne; [done|].
      intros Heq. apply Hp. rewrite Heq. by apply list_elem_of_fmap_2.
  - intros l q0 Hq0. destruct (Hl1 l q0 Hq0) as [H1|H1];
      destruct (Hmono _ _ H1) as [H2|H2]; rewrite H2; auto.
  - intros p0 Hp0 Hs0. apply elem_of_cons in Hp0 as [->|Hp0].
    + unfold slot_nonempty in Hs0. rewrite Hslot in Hs0.
      destruct e as [|x e]; [done|].
      assert (H1 : lists h1 !! qlist p = Some (set_dirty q)).
      { simpl. rewrite list_lookup_insert_eq; [done|].
        by eapply lookup_lt_Some. }
      unfold is_dirty. by destruct (Hmono _ _ H1) as [-> | ->].
    + apply Hdirty; [done|]. by rewrite Hne.
  - intros l Hempty. rewrite Hkeep.
    + simpl. destruct (decide (e = [])) as [|Hne']; [done|].
      destruct (decide (l = qlist p)) as [->|];
        [|by rewrite list_lookup_insert_ne].
      specialize (Hempty p (list_elem_of_here _ _) eq_refl).
      unfold slot_nonempty in Hempty. rewrite Hslot in Hempty.
      by destruct e.
    + intros p0 Hp0 Hl. rewrite Hne by done. apply Hempty; [|done].
      by apply list_elem_of_further.
Qed.

(** C1. [removeView(index)] takes the entry at [index] out of the value
    tree of every deep predicate.  When that entry held something, the
    target list of the predicate is dirty afterwards; when it was empty,
    and so were the entries of the other predicates that feed the same
    list, the list is exactly as it was: a flag that was [false] stays
    [false]. *)
Theorem removeView_spec (index : Z) (this : loc) (h : Heap) (t : LQueries_) :
  trackers h !! this = Some t ->
  views_at h index (deep t) ->
  ∃ h',
    removeView index this h = Ok tt h' ∧
    ∀ p, p ∈ deep t ->
      ∃ vs a e,
        arrays h !! values p = Some vs ∧
        vs !! Z.to_nat index = Some (EArr a) ∧
        arrays h !! a = Some e ∧
        arrays h' !! values p = Some (delete (Z.to_nat index) vs) ∧
        (e ≠ [] -> is_dirty h' (qlist p) = Some true) ∧
        (e = [] ->
         (∀ p', p' ∈ deep t -> qlist p' = qlist p ->
                slot_nonempty h index p' = false) ->
         lists h' !! qlist p = lists h !! qlist p).
Proof.
  intros Ht Hviews.
  destruct (removeView_loop_views index (deep t) h Hviews)
    as (h' & Hloop & _ & _ & Hcont & _ & Hdirty & Hkeep).
  exists h'. split.
  { unfold removeView. by rewrite (bind_ok _ _ _ _ _ (tracker_get_ok _ _ _ Ht)). }
  intros p Hp. destruct Hviews as [_ Hall]. rewrite Forall_forall in Hall.
  destruct (Hall p Hp) as (a & e & Hslot & _).
  pose proof Hslot as Hslot'.
  apply view_slot_Some in Hslot' as (vs & Hvs & Hi & Hvi & He).
  exists vs, a, e. repeat split; try done.
  - by apply Hcont.
  - intros Hne. apply Hdirty; [done|]. unfold slot_nonempty.
    rewrite Hslot. by destruct e.
  - intros _ Hothers. by apply Hkeep.
Qed.

End RemoveView.

Lemma removeView_spec_witness :
  (∃ h', @removeView devEnv 1 1 heap_fresh_views = Ok tt h' ∧
         arrays h' !! 1 = Some [EArr 2] ∧
         is_dirty heap_fresh_views 0 = Some false ∧
         is_dirty h' 0 = Some false) ∧
  (∃ h', @removeView devEnv 0 1 heap_fresh_views = Ok tt h' ∧
         arrays h' !! 1 = Some [EArr 3] ∧
         is_dirty h' 0 = Some true).
Proof.
  assert (Hin : ∀ i, (i = 0 ∨ i = 1)%Z -> views_at heap_fresh_views i
                [{| qlist := 0; type := Some 1; selector := None;
                    read := None; values := 1 |}]).
  { intros i Hi. split; [apply NoDup_singleton|].
    apply Forall_singleton.
    destruct Hi as [-> | ->]; eexists _, _;
      (split; [reflexivity|]); (split; [|by eexists]);
      intros Hx; apply list_elem_of_singleton in Hx; done. }
  split.
  - destruct (@removeView_spec devEnv 1 1 heap_fresh_views _ eq_refl)
      as (h' & Hr & Hp); [apply Hin; by right|].
    destruct (Hp _ (list_elem_of_here _ _))
      as (vs & a & e & Hvs & Hvi & He & Hvs' & _ & Hkeep).
    simpl in Hvs. simplify_eq. simpl in Hvi. simplify_eq.
    simpl in He. simplify_eq.
    exists h'. split; [done|]. split; [done|]. split; [done|].
    unfold is_dirty. simpl in Hkeep. rewrite Hkeep; [done|done|].
    intros p' Hp' _. apply list_elem_of_singleton in Hp' as ->. done.
  - destruct (@removeView_spec devEnv 0 1 heap_fresh_views _ eq_refl)
      as (h' & Hr & Hp); [apply Hin; by left|].
    destruct (Hp _ (list_elem_of_here _ _))
      as (vs & a & e & Hvs & Hvi & He & Hvs' & Hdirty & _).
    simpl in Hvs. simplify_eq. simpl in Hvi. simplify_eq.
    simpl in He. simplify_eq.
    exists h'. split; [done|]. split; [done|]. by apply Hdirty.
Defined.

(** ** Heaps before and after a call *)

Lemma stable_ret {A} (R : Heap -> Heap -> Prop) `{!Reflexive R} (a : A) :
  stable R (mret a).
Proof. intros h. simpl. reflexivity. Qed.

Lemma stable_throw {A} (R : Heap -> Heap -> Prop) `{!Reflexive R} e :
  stable R (throw (A := A) e).
Proof. intros h. simpl. reflexivity. Qed.

Lemma stable_lift {A} (R : Heap -> Heap -> Prop) `{!Reflexive R} (r : error + A) :
  stable R (lift r).
Proof. destruct r; [by apply stable_throw|by apply stable_ret]. Qed.

Lemma stable_bind {A B} (R : Heap -> Heap -> Prop) `{!Transitive R}
    (m : M A) (k : A -> M B) :
  stable R m -> (∀ a, stable R (k a)) -> stable R (m ≫= k).
Proof.
  intros Hm Hk h. unfold mbind, M_bind. specialize (Hm h).
  destruct (m h) as [a h1|e h1]; simpl in *; [|done].
  etrans; [done|]. apply Hk.
Qed.

Lemma stable_fmap {A B} (R : Heap -> Heap -> Prop) `{!Reflexive R}
    `{!Transitive R} (f : A -> B) (m : M A) :
  stable R m -> stable R (f <$> m).
Proof.
  intros Hm. unfold fmap, M_fmap. apply (stable_bind R); [done|].
  intros a. by apply stable_ret.
Qed.

(** A computation that only reads is stable for every reflexive
    relation. *)
Lemma stable_arr_get (R : Heap -> Heap -> Prop) `{!Reflexive R} a :
  stable R (arr_get a).
Proof. intros h. unfold arr_get. destruct (_ !! a); simpl; reflexivity. Qed.

Lemma stable_list_get (R : Heap -> Heap -> Prop) `{!Reflexive R} l :
  stable R (list_get l).
Proof. intros h. unfold list_get. destruct (_ !! l); simpl; reflexivity. Qed.

Lemma stable_tracker_get (R : Heap -> Heap -> Prop) `{!Reflexive R} t :
  stable R (tracker_get t).
Proof. intros h. unfold tracker_get. destruct (_ !! t); simpl; reflexivity. Qed.

#[global] Instance arrays_grow_refl : Reflexive arrays_grow.
Proof. intros h. unfold arrays_grow. lia. Qed.
#[global] Instance arrays_grow_trans : Transitive arrays_grow.
Proof. intros h1 h2 h3. unfold arrays_grow. lia. Qed.

#[global] Instance arrays_frame_refl S : Reflexive (arrays_frame S).
Proof. by intros h a _. Qed.
#[global] Instance arrays_frame_trans S : Transitive (arrays_frame S).
Proof. intros h1 h2 h3 H12 H23 a Ha. by rewrite H23, H12. Qed.

#[global] Instance keeps_ordered_refl : Reflexive keeps_ordered.
Proof. intros h. unfold keeps_ordered. tauto. Qed.
#[global] Instance keeps_ordered_trans : Transitive keeps_ordered.
Proof. intros h1 h2 h3. unfold keeps_ordered. tauto. Qed.

(** Writes that leave the arrays alone. *)
Lemma stable_list_set (R : Heap -> Heap -> Prop) l q :
  (∀ h f, R h (upd_lists f h)) -> stable R (list_set l q).
Proof. intros HR h. apply HR. Qed.

Lemma stable_list_new (R : Heap -> Heap -> Prop) q :
  (∀ h f, R h (upd_lists f h)) -> stable R (list_new q).
Proof. intros HR h. apply HR. Qed.

Lemma stable_tracker_set (R : Heap -> Heap -> Prop) t q :
  (∀ h f, R h (upd_trackers f h)) -> stable R (tracker_set t q).
Proof. intros HR h. apply HR. Qed.

Lemma stable_tracker_new (R : Heap -> Heap -> Prop) q :
  (∀ h f, R h (upd_trackers f h)) -> stable R (tracker_new q).
Proof. intros HR h. apply HR. Qed.

Lemma arrays_grow_lists h f : arrays_grow h (upd_lists f h).
Proof. unfold arrays_grow. simpl. lia. Qed.
Lemma arrays_grow_trackers h f : arrays_grow h (upd_trackers f h).
Proof. unfold arrays_grow. simpl. lia. Qed.
Lemma arrays_frame_lists S h f : arrays_frame S h (upd_lists f h).
Proof. by intros a _. Qed.
Lemma arrays_frame_trackers S h f : arrays_frame S h (upd_trackers f h).
Proof. by intros a _. Qed.
Lemma keeps_ordered_lists h f : keeps_ordered h (upd_lists f h).
Proof. unfold keeps_ordered. simpl. tauto. Qed.
Lemma keeps_ordered_trackers h f : keeps_ordered h (upd_trackers f h).
Proof. unfold keeps_ordered. simpl. tauto. Qed.

Lemma arrays_grow_set a vs : stable arrays_grow (arr_set a vs).
Proof. intros h. unfold arrays_grow. simpl. by rewrite length_insert. Qed.

Lemma arrays_grow_new : stable arrays_grow arr_new.
Proof. intros h. unfold arrays_grow. simpl. rewrite length_app. lia. Qed.

Lemma arrays_frame_set S a vs : a ∈ S -> stable (arrays_frame S) (arr_set a vs).
Proof.
  intros Ha h b Hb. simpl. rewrite list_lookup_insert_ne; [done|].
  by intros ->.
Qed.

Create HintDb stable.
#[local] Hint Resolve arrays_grow_lists arrays_grow_trackers
  arrays_frame_lists arrays_frame_trackers keeps_ordered_lists
  keeps_ordered_trackers : stable.

Lemma stable_setDirty (R : Heap -> Heap -> Prop) `{!Reflexive R}
    `{!Transitive R} l :
  (∀ h f, R h (upd_lists f h)) -> stable R (QueryList.setDirty l).
Proof.
  intros HR. unfold QueryList.setDirty.
  apply (stable_bind R); [by apply stable_list_get|].
  intros q. by apply stable_list_set.
Qed.

(** One step through a computation, for a relation [R] that the writes to
    lists and trackers respect. *)
Ltac stable_step :=
  lazymatch goal with
  | |- stable ?R (mret _) => apply (stable_ret R)
  | |- stable ?R (throw _) => apply (stable_throw R)
  | |- stable ?R (lift _) => apply (stable_lift R)
  | |- stable ?R (arr_get _) => apply (stable_arr_get R)
  | |- stable ?R (list_get _) => apply (stable_list_get R)
  | |- stable ?R (tracker_get _) => apply (stable_tracker_get R)
  | |- stable ?R (list_set _ _) => apply (stable_list_set R); auto with stable
  | |- stable ?R (list_new _) => apply (stable_list_new R); auto with stable
  | |- stable ?R (tracker_set _ _) =>
      apply (stable_tracker_set R); auto with stable
  | |- stable ?R (tracker_new _) =>
      apply (stable_tracker_new R); auto with stable
  | |- stable ?R (_ ≫= _) => apply (stable_bind R); [ | intros ?]
  | |- stable ?R (_ <$> _) => apply (stable_fmap R)
  | |- stable _ (if ?b then _ else _) => destruct b
  | |- stable _ (match ?x with _ => _ end) => destruct x
  end.

Lemma stable_notifyOnChanges (R : Heap -> Heap -> Prop) `{!Reflexive R}
    `{!Transitive R} l :
  (∀ h f, R h (upd_lists f h)) -> stable R (QueryList.notifyOnChanges l).
Proof.
  intros HR. unfold QueryList.notifyOnChanges.
  apply (stable_bind R); [by apply stable_list_get|].
  intros q. by apply stable_list_set.
Qed.

Lemma stable_reset (R : Heap -> Heap -> Prop) `{!Reflexive R}
    `{!Transitive R} l res :
  (∀ h f, R h (upd_lists f h)) -> stable R (QueryList.reset l res).
Proof.
  intros HR h. unfold QueryList.reset.
  destruct (flatten _ _); simpl; [|reflexivity].
  revert h. fold (stable R (q ← list_get l;
    list_set l {| dirty := false; changes := changes q; _values := l0;
                  _valuesTree := _valuesTree q |})).
  apply (stable_bind R); [by apply stable_list_get|].
  intros q. by apply stable_list_set.
Qed.

Lemma stable_queryRefresh (R : Heap -> Heap -> Prop) `{!Reflexive R}
    `{!Transitive R} l :
  (∀ h f, R h (upd_lists f h)) -> stable R (queryRefresh l).
Proof.
  intros HR. unfold queryRefresh.
  apply (stable_bind R); [by apply stable_list_get|].
  intros q. destruct (dirty q); [|by apply stable_ret].
  apply (stable_bind R); [by apply stable_reset|]. intros _.
  apply (stable_bind R); [by apply stable_notifyOnChanges|]. intros _.
  by apply stable_ret.
Qed.

Section StablePrograms.
Context {env : BuildEnv}.
Context (R : Heap -> Heap -> Prop) `{!Reflexive R} `{!Transitive R}.
Context (W : loc -> Prop).
Hypothesis R_lists : ∀ h f, R h (upd_lists f h).
Hypothesis R_trackers : ∀ h f, R h (upd_trackers f h).
Hypothesis R_set : ∀ a vs, W a -> stable R (arr_set a vs).

#[local] Hint Resolve R_lists R_trackers : stable.

Lemma stable_addMatch p v : W (values p) -> stable R (addMatch p v).
Proof.
  intros Hw. unfold addMatch, arr_push. repeat stable_step.
- by apply R_set.
- apply (stable_setDirty R); auto with stable.
Qed.

Lemma stable_add_one p node : W (values p) -> stable R (add_one p node).
Proof.
  intros Hw. unfold add_one. destruct (type p) as [T|].
  - unfold add_type. repeat stable_step. by apply stable_addMatch.
  - destruct (selector p) as [names|]; [|stable_step].
    induction names as [|n names IH]; simpl; [stable_step|].
    unfold dev_only, assertNotNull.
    repeat stable_step; try done; by apply stable_addMatch.
Qed.

Lemma stable_add ps node :
  Forall (fun p => W (values p)) ps -> stable R (add ps node).
Proof.
  induction 1 as [|p ps Hp _ IH]; simpl; [stable_step|].
  stable_step; [by apply stable_add_one|done].
Qed.

Lemma stable_removeView_loop index ps :
  Forall (fun p => W (values p)) ps -> stable R (removeView_loop index ps).
Proof.
  induction 1 as [|p ps Hp _ IH]; simpl; [stable_step|].
  stable_step; [stable_step|].
  destruct (splice_remove index a) as [removed remaining].
  stable_step; [by apply R_set|].
  unfold dev_only, assertEqual, removed_length.
  repeat stable_step; try done; apply (stable_setDirty R); auto with stable.
Qed.

Hypothesis R_new : stable R arr_new.
Hypothesis W_all : ∀ a, W a.

Lemma stable_clone_loop ins ps acc :
  stable R (_clonePredicates_loop (insert_clone ins) ps acc).
Proof.
  revert acc. induction ps as [|p ps IH]; intros acc; simpl; [stable_step|].
  stable_step; [|done]. unfold insert_clone.
  stable_step; [done|]. repeat stable_step. by apply R_set.
Qed.

Lemma stable_exec o : ∀ h, R h (exec o h).
Proof.
  destruct o as [| |this queryList predicate descend rd|this|this
                 |index this|node this|index this|queryList]; simpl.
  - change (stable R QueryList.new). unfold QueryList.new.
    repeat stable_step. done.
  - change (stable R (newLQueries [])). unfold newLQueries. stable_step.
  - change (stable R (track this queryList predicate descend rd)).
    unfold track, createPredicate. repeat stable_step.
  - change (stable R (child this)). unfold child, newLQueries.
    repeat stable_step.
  - change (stable R (container this)). unfold container, newLQueries.
    stable_step; [stable_step|]. stable_step.
    + intros h. rewrite container_loop_clone. apply stable_clone_loop.
    + repeat stable_step.
  - change (stable R (enterView index this)). unfold enterView, newLQueries.
    stable_step; [stable_step|]. stable_step.
    + intros h. rewrite enterView_loop_clone. apply stable_clone_loop.
    + repeat stable_step.
  - change (stable R (addNode node this)). unfold addNode.
    stable_step; [stable_step|]. stable_step.
    { apply stable_add. apply Forall_forall. auto. }
    stable_step; [stable_step|].
    apply stable_add. apply Forall_forall. auto.
  - change (stable R (removeView index this)). unfold removeView.
    stable_step; [stable_step|].
    apply stable_removeView_loop. apply Forall_forall. auto.
  - change (stable R (queryRefresh queryList)). by apply stable_queryRefresh.
Qed.

Lemma stable_run ops : ∀ h, R h (run ops h).
Proof.
  induction ops as [|o ops IH]; intros h; simpl; [reflexivity|].
  etrans; [apply stable_exec|apply IH].
Qed.

End StablePrograms.

Section Frames.
Context {env : BuildEnv}.

(** No call frees an array. *)
Lemma run_arrays_grow ops h :
  length (arrays h) <= length (arrays (run ops h)).
Proof.
  apply (stable_run arrays_grow (fun _ => True)); auto with stable.
  - intros a vs _. apply arrays_grow_set.
  - apply arrays_grow_new.
Qed.

(** Matching a node writes to the value trees of the chain only. *)
Lemma add_frame ps node h a :
  a ∉ values <$> ps ->
  arrays (heap_of (add ps node h)) !! a = arrays h !! a.
Proof.
  intros Ha.
  apply (stable_add (arrays_frame (values <$> ps)) (.∈ values <$> ps));
    auto with stable.
  - intros b vs Hb. by apply arrays_frame_set.
  - apply Forall_forall. intros p Hp. by apply list_elem_of_fmap_2.
Qed.

(** So does removing a view. *)
Lemma removeView_loop_frame index ps h a :
  a ∉ values <$> ps ->
  arrays (heap_of (removeView_loop index ps h)) !! a = arrays h !! a.
Proof.
  intros Ha.
  apply (stable_removeView_loop (arrays_frame (values <$> ps))
           (.∈ values <$> ps)); auto with stable.
  - intros b vs Hb. by apply arrays_frame_set.
  - apply Forall_forall. intros p Hp. by apply list_elem_of_fmap_2.
Qed.

End Frames.

(** ** [container] *)

(** What a call of [container] that returns a tracker has done. *)
Lemma container_inv this h c h' :
  container this h = Ok (Some c) h' ->
  ∃ t,
    trackers h !! this = Some t ∧
    deep t ≠ [] ∧
    c = length (trackers h) ∧
    trackers h' =
      trackers h ++ [{| shallow := [];
                        deep := clones_at (length (arrays h)) (deep t) |}] ∧
    length (arrays h') = length (arrays h) + length (deep t) ∧
    lists h' = lists h.
Proof.
  unfold container. unfold mbind at 1. unfold M_bind at 1.
  unfold tracker_get. destruct (trackers h !! this) as [t|]; [|done].
  intros H. exists t. unfold mbind, M_bind in H. rewrite container_loop_clone in H.
  destruct (_clonePredicates_loop _ _ _ _) as [res h1|] eqn:E; [|done].
  apply clone_loop_shape in E as (-> & Hlen & Hl & Ht).
  rewrite app_nil_r in H.
  destruct (deep t) as [|p ps] eqn:Ed.
  { done. }
  rewrite new_tracker_for in H.
  - injection H as <- <-. simpl. rewrite Ht, Hl. done.
  - intros Hnil. apply (f_equal length) in Hnil.
    by rewrite clones_at_length in Hnil.
Qed.

Lemma clones_at_share n m ps :
  n ≠ m ->
  Forall2 (fun x y => qlist x = qlist y ∧ type x = type y ∧
                      selector x = selector y ∧ read x = read y ∧
                      values x ≠ values y)
    (clones_at n ps) (clones_at m ps).
Proof.
  revert n m. induction ps as [|p ps IH]; intros n m Hnm; [constructor|].
  rewrite !clones_at_cons. apply Forall2_app; [apply IH; lia|].
  by repeat constructor.
Qed.

Section Containers.
Context {env : BuildEnv}.

(** C6. Two calls of [container], with any calls in between: each gives
    the deep predicates clones with new arrays of their own.  The clones
    of one predicate feed the same target list, and no array of the
    clones of one call is an array of the clones of the other, so
    matching a node through the clones of one call, or removing a view
    from them, leaves the value trees of the other clones as they
    were. *)
Theorem container_clones_private (this1 this2 c1 c2 : loc) (ops : list op)
    (h h1 h2 : Heap) :
  container this1 h = Ok (Some c1) h1 ->
  container this2 (run ops h1) = Ok (Some c2) h2 ->
  ∃ t1 t2 d1 d2,
    trackers h !! this1 = Some t1 ∧
    trackers (run ops h1) !! this2 = Some t2 ∧
    trackers h1 !! c1 = Some {| shallow := []; deep := d1 |} ∧
    trackers h2 !! c2 = Some {| shallow := []; deep := d2 |} ∧
    d1 = clones_at (length (arrays h)) (deep t1) ∧
    d2 = clones_at (length (arrays (run ops h1))) (deep t2) ∧
    (deep t1 = deep t2 ->
       Forall2 (fun x y => qlist x = qlist y ∧ type x = type y ∧
                           selector x = selector y ∧ read x = read y ∧
                           values x ≠ values y) d1 d2) ∧
    (∀ x y, x ∈ d1 -> y ∈ d2 -> values x ≠ values y) ∧
    (∀ x, x ∈ d1 -> arrays h !! values x = None ∧
                    is_Some (arrays h1 !! values x)) ∧
    (∀ y, y ∈ d2 -> arrays (run ops h1) !! values y = None ∧
                    is_Some (arrays h2 !! values y)) ∧
    (∀ H node,
       (∀ y, y ∈ d2 ->
          arrays (heap_of (add d1 node H)) !! values y = arrays H !! values y) ∧
       (∀ x, x ∈ d1 ->
          arrays (heap_of (add d2 node H)) !! values x = arrays H !! values x)) ∧
    (∀ H index,
       (∀ y, y ∈ d2 ->
          arrays (heap_of (removeView_loop index d1 H)) !! values y
            = arrays H !! values y) ∧
       (∀ x, x ∈ d1 ->
          arrays (heap_of (removeView_loop index d2 H)) !! values x
            = arrays H !! values x)).
Proof.
  intros Hc1 Hc2.
  apply container_inv in Hc1 as (t1 & Ht1 & Hne1 & -> & Htr1 & Hlen1 & _).
  apply container_inv in Hc2 as (t2 & Ht2 & Hne2 & -> & Htr2 & Hlen2 & _).
  pose proof (run_arrays_grow ops h1) as Hgrow.
  set (d1 := clones_at (length (arrays h)) (deep t1)).
  set (d2 := clones_at (length (arrays (run ops h1))) (deep t2)).
  assert (Hdisj : ∀ x y, x ∈ d1 -> y ∈ d2 -> values x ≠ values y).
  { intros x y Hx Hy. apply clones_at_values in Hx, Hy. lia. }
  assert (Hnot1 : ∀ y, y ∈ d2 -> values y ∉ values <$> d1).
  { intros y Hy Hin. apply list_elem_of_fmap in Hin as (x & Hxy & Hx).
    by apply (Hdisj x y). }
  assert (Hnot2 : ∀ x, x ∈ d1 -> values x ∉ values <$> d2).
  { intros x Hx Hin. apply list_elem_of_fmap in Hin as (y & Hxy & Hy).
    by apply (Hdisj x y). }
  exists t1, t2, d1, d2.
  split; [done|]. split; [done|].
  split. { rewrite Htr1, lookup_app_r by lia. by rewrite Nat.sub_diag. }
  split. { rewrite Htr2, lookup_app_r by lia. by rewrite Nat.sub_diag. }
  split; [done|]. split; [done|].
  split.
  { intros Heq. unfold d1, d2. rewrite Heq. apply clones_at_share.
    destruct (deep t1); [done|]. simpl in Hlen1. lia. }
  split; [done|].
  split.
  { intros x Hx. apply clones_at_values in Hx. split.
    - apply lookup_ge_None_2. lia.
    - apply lookup_lt_is_Some_2. lia. }
  split.
  { intros y Hy. apply clones_at_values in Hy. split.
    - apply lookup_ge_None_2. lia.
    - apply lookup_lt_is_Some_2. lia. }
  split.
  - intros H node. split.
    + intros y Hy. apply add_frame. by apply Hnot1.
    + intros x Hx. apply add_frame. by apply Hnot2.
  - intros H index. split.
    + intros y Hy. apply removeView_loop_frame. by apply Hnot1.
    + intros x Hx. apply removeView_loop_frame. by apply Hnot2.
Qed.

End Containers.

Lemma container_clones_private_witness :
  ∃ d1 d2,
    deep <$> trackers heap_second_container !! 1 = Some d1 ∧
    deep <$> trackers heap_second_container !! 2 = Some d2 ∧
    values <$> d1 = [1] ∧ values <$> d2 = [2] ∧
    qlist <$> d1 = qlist <$> d2 ∧
    arrays (heap_of (@add devEnv d1 (directiveNode 1 (JObj 6))
                       heap_second_container)) !! 2 = Some [].
Proof.
  destruct (@container_clones_private devEnv 0 0 1 2
              [OpAddNode (directiveNode 1 (JObj 5)) 1]
              heap_one_deep heap_first_container heap_second_container
              eq_refl eq_refl)
    as (t1 & t2 & d1 & d2 & Ht1 & Ht2 & Hd1 & Hd2 & -> & -> & _ & _ & _ & _
        & Hadd & _).
  simpl in Ht1, Ht2. simplify_eq.
  eexists _, _. split; [reflexivity|]. split; [reflexivity|].
  split; [reflexivity|]. split; [reflexivity|]. split; [reflexivity|].
  destruct (Hadd heap_second_container (directiveNode 1 (JObj 6))) as [Hy _].
  specialize (Hy _ (list_elem_of_here _ _)). simpl in Hy. simpl.
  exact Hy.
Defined.

(** ** The reuse of the tracker by [child] *)

Section Reuse.
Context {env : BuildEnv}.

(** A tracker returned by [child], [container] or [enterView] has an
    empty shallow chain when it is returned. *)
Lemma descendant_shallow_empty this index h c h' :
  child this h = Ok (Some c) h' ∨
  container this h = Ok (Some c) h' ∨
  enterView index this h = Ok (Some c) h' ->
  shallow <$> trackers h' !! c = Some [].
Proof.
  intros [Hc|[Hc|Hc]].
  - unfold child in Hc. unfold mbind, M_bind, tracker_get in Hc.
    destruct (trackers h !! this) as [t|] eqn:Ht; [|done].
    destruct (deep t) as [|p ps]; [done|].
    destruct (shallow t) as [|s ss] eqn:Hs.
    + injection Hc as <- <-. by rewrite Ht, <- Hs.
    + simpl in Hc. injection Hc as <- <-. simpl.
      rewrite lookup_app_r by lia. by rewrite Nat.sub_diag.
  - apply container_inv in Hc as (t & _ & _ & -> & -> & _).
    rewrite lookup_app_r by lia. by rewrite Nat.sub_diag.
  - unfold enterView in Hc. unfold mbind at 1 in Hc. unfold M_bind at 1 in Hc.
    unfold tracker_get in Hc. destruct (trackers h !! this) as [t|]; [|done].
    unfold mbind, M_bind in Hc. rewrite enterView_loop_clone in Hc.
    destruct (_clonePredicates_loop _ _ _ _) as [res h1|] eqn:E; [|done].
    destruct res as [|r res]; [done|].
    simpl in Hc. injection Hc as <- <-. simpl.
    rewrite lookup_app_r by lia. by rewrite Nat.sub_diag.
Qed.

(** Tracking a query at one tracker leaves every other tracker as it
    was. *)
Lemma track_other this queryList predicate descend rd h c :
  c ≠ this ->
  trackers (heap_of (track this queryList predicate descend rd h)) !! c
    = trackers h !! c.
Proof.
  intros Hc. unfold track, createPredicate, mbind, M_bind, tracker_get, list_get.
  destruct (trackers h !! this) as [t|]; simpl; [|done].
  destruct descend; destruct (lists h !! queryList) as [q|]; simpl; try done;
    by rewrite list_lookup_insert_ne.
Qed.

(** The trackers that [container] and [enterView] return, and the tracker
    that [child] returns for a tracker with shallow predicates, are new
    objects: a shallow query tracked afterwards at the scope they come
    from does not reach them. *)
Lemma descendant_unshared this index h c h' queryList predicate rd :
  container this h = Ok (Some c) h' ∨
  enterView index this h = Ok (Some c) h' ∨
  (child this h = Ok (Some c) h' ∧ c ≠ this) ->
  shallow <$> trackers
    (heap_of (track this queryList predicate false rd h')) !! c = Some [].
Proof.
  intros Hc.
  assert (Hne : c ≠ this).
  { destruct Hc as [Hc|[Hc|[_ Hc]]]; [| |done].
    - apply container_inv in Hc as (t & Ht & _ & -> & _).
      apply lookup_lt_Some in Ht. lia.
    - unfold enterView in Hc. unfold mbind at 1 in Hc.
      unfold M_bind at 1 in Hc. unfold tracker_get in Hc.
      destruct (trackers h !! this) as [t|] eqn:Ht; [|done].
      apply lookup_lt_Some in Ht.
      unfold mbind, M_bind in Hc. rewrite enterView_loop_clone in Hc.
      destruct (_clonePredicates_loop _ _ _ _) as [res h1|] eqn:E; [|done].
      apply clone_loop_shape in E as (_ & _ & _ & Htr).
      destruct res as [|r res]; [done|].
      simpl in Hc. injection Hc as <- _. rewrite Htr. lia. }
  rewrite track_other by done.
  apply (descendant_shallow_empty this index h).
  destruct Hc as [Hc|[Hc|[Hc _]]]; auto.
Qed.

(** C4. When [child] returns the tracker itself, tracking a shallow
    query at the child scope changes the parent: a node added at the
    parent scope is matched by the shallow predicate of the child scope
    and ends up in its list, which stays empty when the child scope gets
    a tracker of its own. *)
Theorem child_reuse_observable :
  ∃ h1 h2,
    @shallow_tracked_in_child devEnv child empty_heap = Ok [JObj 7] h1 ∧
    @shallow_tracked_in_child devEnv child_always_new empty_heap = Ok [] h2.
Proof. eexists _, _. split; vm_compute; reflexivity. Qed.

(** C5. When [child] returned the tracker itself, a shallow query
    tracked at the scope afterwards is matched against the nodes of the
    child scope: the node added there ends up in the list of the shallow
    query. *)
Theorem shallow_reaches_child_scope :
  ∃ h1, @shallow_tracked_after_child devEnv empty_heap = Ok [JObj 7] h1.
Proof. eexists. vm_compute. reflexivity. Qed.

End Reuse.

(** ** Well-formed heaps *)

#[global] Instance keeps_wf_refl : Reflexive keeps_wf.
Proof. intros h Hh. split; [done|lia]. Qed.
#[global] Instance keeps_wf_trans : Transitive keeps_wf.
Proof.
  intros h1 h2 h3 H12 H23 H1. destruct (H12 H1) as [H2 Hl2].
  destruct (H23 H2) as [H3 Hl3]. split; [done|lia].
Qed.

Lemma elem_above_mono n m a e : n <= m -> elem_above n a e -> elem_above m a e.
Proof. destruct e; simpl; [done|lia]. Qed.

Lemma tree_ordered_alloc A : tree_ordered A -> tree_ordered (A ++ [[]]).
Proof.
  intros HA a vs Hvs. rewrite length_app. simpl.
  apply lookup_app_Some in Hvs as [Hvs|[_ Hvs]].
  - eapply Forall_impl; [by apply HA|]. intros e. apply elem_above_mono. lia.
  - apply list_lookup_singleton_Some in Hvs as [_ <-]. constructor.
Qed.

Lemma tree_ordered_write A a vs :
  tree_ordered A -> Forall (elem_above (length A) a) vs ->
  tree_ordered (<[a := vs]> A).
Proof.
  intros HA Hvs b ws Hws. rewrite length_insert.
  apply list_lookup_insert_Some in Hws as [(-> & <- & _)|[_ Hws]]; [done|].
  by apply HA.
Qed.

(** Growing or rewriting the arrays keeps the references of lists and
    trackers valid. *)
Lemma heap_wf_arrays h A :
  heap_wf h -> tree_ordered A -> length (arrays h) <= length A ->
  heap_wf {| arrays := A; lists := lists h; trackers := trackers h |}.
Proof.
  intros [Ho Hl Ht] HA Hlen. split; simpl; [done| |].
  - eapply Forall_impl; [done|]. intros q Hq. simpl in *. lia.
  - eapply Forall_impl; [done|]. intros t [Hs Hd]. unfold valid_chain in *.
    split; (eapply Forall_impl; [done|]); intros p Hp; simpl in *; lia.
Qed.

Lemma heap_wf_lists h L :
  heap_wf h -> Forall (fun q => _valuesTree q < length (arrays h)) L ->
  heap_wf {| arrays := arrays h; lists := L; trackers := trackers h |}.
Proof. intros [Ho Hl Ht] HL. by split. Qed.

Lemma heap_wf_trackers h T :
  heap_wf h ->
  Forall (fun t => valid_chain h (shallow t) ∧ valid_chain h (deep t)) T ->
  heap_wf {| arrays := arrays h; lists := lists h; trackers := T |}.
Proof. intros [Ho Hl Ht] HT. by split. Qed.

Lemma heap_wf_empty : heap_wf empty_heap.
Proof. split; simpl; [|constructor..]. by intros a vs Hvs. Qed.

(** Rewriting an array with elements it already held, and matched
    values. *)
Lemma keeps_wf_write h a vs vs' :
  arrays h !! a = Some vs ->
  (∀ e, e ∈ vs' -> e ∈ vs ∨ ∃ v, e = EVal v) ->
  keeps_wf h (upd_arrays (<[a := vs']>) h).
Proof.
  intros Hvs Hsub Hh. split; [|simpl; by rewrite length_insert].
  apply heap_wf_arrays; [done| |by rewrite length_insert].
  apply tree_ordered_write; [apply Hh|].
  pose proof (wf_ordered _ Hh a vs Hvs) as Hall.
  rewrite Forall_forall in Hall |- *. intros e He.
  destruct (Hsub e He) as [Hin|[v ->]]; [by apply Hall|done].
Qed.

(** A list keeps its value tree when its other fields are written. *)
Lemma keeps_wf_list_set h l q q' :
  lists h !! l = Some q -> _valuesTree q' = _valuesTree q ->
  keeps_wf h (upd_lists (<[l := q']>) h).
Proof.
  intros Hq Htree Hh. split; [|done]. apply heap_wf_lists; [done|].
  pose proof (wf_lists _ Hh) as Hl. rewrite Forall_forall in Hl |- *.
  intros x Hx. apply list_elem_of_lookup in Hx as [i Hi].
  apply list_lookup_insert_Some in Hi as [(-> & <- & _)|[_ Hi]].
  - rewrite Htree. apply Hl. by eapply list_elem_of_lookup_2.
  - apply Hl. by eapply list_elem_of_lookup_2.
Qed.

Lemma keeps_wf_setDirty l : stable keeps_wf (QueryList.setDirty l).
Proof.
  intros h. unfold QueryList.setDirty, mbind, M_bind, list_get.
  destruct (lists h !! l) as [q|] eqn:Hq; simpl; [|reflexivity].
  by eapply keeps_wf_list_set.
Qed.

Lemma keeps_wf_notifyOnChanges l : stable keeps_wf (QueryList.notifyOnChanges l).
Proof.
  intros h. unfold QueryList.notifyOnChanges, mbind, M_bind, list_get.
  destruct (lists h !! l) as [q|] eqn:Hq; simpl; [|reflexivity].
  by eapply keeps_wf_list_set.
Qed.

Lemma keeps_wf_reset l res : stable keeps_wf (QueryList.reset l res).
Proof.
  intros h. unfold QueryList.reset.
  destruct (flatten _ _) as [vs|]; simpl; [|reflexivity].
  unfold mbind, M_bind, list_get.
  destruct (lists h !! l) as [q|] eqn:Hq; simpl; [|reflexivity].
  by eapply keeps_wf_list_set.
Qed.

Lemma keeps_wf_queryRefresh l : stable keeps_wf (queryRefresh l).
Proof.
  unfold queryRefresh.
  apply (stable_bind keeps_wf); [by apply stable_list_get|].
  intros q. destruct (dirty q); [|by apply stable_ret].
  apply (stable_bind keeps_wf); [by apply keeps_wf_reset|]. intros _.
  apply (stable_bind keeps_wf); [by apply keeps_wf_notifyOnChanges|]. intros _.
  by apply stable_ret.
Qed.

Lemma keeps_wf_push_val a v : stable keeps_wf (arr_push a (EVal v)).
Proof.
  intros h. unfold arr_push, mbind, M_bind, arr_get.
  destruct (arrays h !! a) as [vs|] eqn:Hvs; simpl; [|reflexivity].
  eapply keeps_wf_write; [done|]. intros e He.
  apply elem_of_app in He as [He|He]; [by left|].
  apply list_elem_of_singleton in He as ->. right. by eexists.
Qed.

Lemma splice_remove_sub {A} (index : Z) (l : list A) x :
  x ∈ (splice_remove index l).2 -> x ∈ l.
Proof.
  unfold splice_remove. simpl. intros Hx.
  apply elem_of_app in Hx as [Hx|Hx].
  - by eapply subseteq_take.
  - by eapply subseteq_drop.
Qed.

Lemma splice_insert_sub {A} (index : Z) (y : A) (l : list A) x :
  x ∈ splice_insert index y l -> x = y ∨ x ∈ l.
Proof.
  unfold splice_insert. intros Hx.
  apply elem_of_app in Hx as [Hx|Hx]; [right; by eapply subseteq_take|].
  apply elem_of_cons in Hx as [->|Hx]; [by left|].
  right. by eapply subseteq_drop.
Qed.

Section WellFormed.
Context {env : BuildEnv}.

Lemma keeps_wf_addMatch p v : stable keeps_wf (addMatch p v).
Proof.
  unfold addMatch.
  apply (stable_bind keeps_wf); [apply keeps_wf_push_val|]. intros _.
  apply keeps_wf_setDirty.
Qed.

Lemma keeps_wf_add_one p node : stable keeps_wf (add_one p node).
Proof.
  unfold add_one. destruct (type p) as [T|].
  - unfold add_type. repeat stable_step. apply keeps_wf_addMatch.
  - destruct (selector p) as [names|]; [|stable_step].
    induction names as [|n names IH]; simpl; [stable_step|].
    unfold dev_only, assertNotNull.
    repeat stable_step; try done; apply keeps_wf_addMatch.
Qed.

Lemma keeps_wf_add ps node : stable keeps_wf (add ps node).
Proof.
  induction ps as [|p ps IH]; simpl; [stable_step|].
  stable_step; [apply keeps_wf_add_one|done].
Qed.

Lemma keeps_wf_removeView_loop index ps :
  stable keeps_wf (removeView_loop index ps).
Proof.
  induction ps as [|p ps IH]; simpl; [stable_step|].
  assert (Hrest : ∀ removed, stable keeps_wf
    (dev_only (assertEqual (length removed) 1 "removed.length");;
     len ← removed_length removed;
     (if decide (len = 0) then mret tt else QueryList.setDirty (qlist p));;
     removeView_loop index ps)).
  { intros removed. unfold dev_only, assertEqual, removed_length.
    repeat stable_step; try done; apply keeps_wf_setDirty. }
  intros h. unfold mbind at 1. unfold M_bind at 1. unfold arr_get.
  destruct (arrays h !! values p) as [vs|] eqn:Hvs; simpl; [|reflexivity].
  pose proof (splice_remove_sub index vs) as Hsub.
  unfold splice_remove in Hsub. simpl in Hsub.
  unfold mbind at 1. unfold M_bind at 1. unfold arr_set at 1.
  etrans; [|apply Hrest].
  eapply (keeps_wf_write h (values p) vs); [done|]. auto.
Qed.

(** The cloning step, on a predicate whose value tree exists. *)
Lemma keeps_wf_insert_clone ins p h :
  (∀ x vs e, e ∈ ins x vs -> e = x ∨ e ∈ vs) ->
  heap_wf h -> values p < length (arrays h) ->
  heap_wf (heap_of (insert_clone ins p h)) ∧
  length (arrays (heap_of (insert_clone ins p h))) = S (length (arrays h)).
Proof.
  intros Hins Hh Hp.
  destruct (lookup_lt_is_Some_2 _ _ Hp) as [vs Hvs].
  rewrite (insert_clone_ok ins p h vs Hvs). simpl.
  assert (Hlen : length (<[values p:=ins (EArr (length (arrays h))) vs]>
                           (arrays h ++ [[]])) = S (length (arrays h))).
  { rewrite length_insert, length_app. simpl. lia. }
  split; [|done].
  apply (heap_wf_arrays h); [done| |lia].
  apply tree_ordered_write; [apply tree_ordered_alloc, Hh|].
  rewrite length_app. simpl.
  pose proof (wf_ordered _ Hh _ _ Hvs) as Hall.
  rewrite Forall_forall in Hall |- *. intros e He.
  destruct (Hins _ _ _ He) as [->|Hin].
  - simpl. lia.
  - eapply elem_above_mono; [|by apply Hall]. lia.
Qed.

Lemma keeps_wf_clone_loop ins ps acc h :
  (∀ x vs e, e ∈ ins x vs -> e = x ∨ e ∈ vs) ->
  heap_wf h -> valid_chain h ps -> valid_chain h acc ->
  let r := _clonePredicates_loop (insert_clone ins) ps acc h in
  heap_wf (heap_of r) ∧
  length (arrays h) <= length (arrays (heap_of r)) ∧
  trackers (heap_of r) = trackers h ∧
  (∀ res h', r = Ok res h' -> valid_chain h' res).
Proof.
  intros Hins. revert acc h.
  induction ps as [|p ps IH]; intros acc h Hh Hps Hacc; simpl.
  { split; [done|]. split; [lia|]. split; [done|]. by intros res h' [= <- <-]. }
  apply Forall_cons in Hps as [Hp Hps].
  destruct (keeps_wf_insert_clone ins p h Hins Hh Hp) as [Hh1 Hlen1].
  destruct (lookup_lt_is_Some_2 _ _ Hp) as [vs Hvs].
  rewrite (insert_clone_ok ins p h vs Hvs) in Hh1, Hlen1. simpl in Hh1, Hlen1.
  rewrite (bind_ok _ _ _ _ _ (insert_clone_ok ins p h vs Hvs)).
  match goal with |- context [_clonePredicates_loop _ ps ?acc' ?h1] =>
    destruct (IH acc' h1) as (Hwf & Hlen & Htr & Hres) end.
  - done.
  - unfold valid_chain in *. eapply Forall_impl; [done|].
    intros q Hq. simpl in *. lia.
  - unfold valid_chain in *. constructor; [simpl; lia|].
    eapply Forall_impl; [done|]. intros q Hq. simpl in *. lia.
  - split; [done|]. split; [simpl in Hlen; lia|]. split; [done|]. done.
Qed.

Lemma keeps_wf_new_tracker h ps :
  heap_wf h -> valid_chain h ps ->
  heap_wf (upd_trackers (.++ [{| shallow := []; deep := ps |}]) h).
Proof.
  intros Hh Hps. apply heap_wf_trackers; [done|].
  apply Forall_app. split; [apply Hh|].
  apply Forall_singleton. split; [constructor|done].
Qed.

Lemma tracker_chains_valid h t tr :
  heap_wf h -> trackers h !! t = Some tr ->
  valid_chain h (shallow tr) ∧ valid_chain h (deep tr).
Proof.
  intros Hh Ht. pose proof (wf_trackers _ Hh) as Hall.
  rewrite Forall_forall in Hall. apply Hall. by eapply list_elem_of_lookup_2.
Qed.

Lemma keeps_wf_clone_call ins this h :
  (∀ x vs e, e ∈ ins x vs -> e = x ∨ e ∈ vs) ->
  keeps_wf h (heap_of (_clonePredicates this (insert_clone ins) h)).
Proof.
  intros Hins Hh. unfold _clonePredicates, mbind, M_bind, tracker_get.
  destruct (trackers h !! this) as [t|] eqn:Ht; simpl; [|split; [done|lia]].
  destruct (tracker_chains_valid h this t Hh Ht) as [_ Hd].
  destruct (keeps_wf_clone_loop ins (deep t) [] h Hins Hh Hd)
    as (Hwf & Hlen & Htr & Hres); [constructor|].
  destruct (_clonePredicates_loop _ _ _ _) as [res h1|e h1]; simpl in *;
    [|done].
  specialize (Hres res h1 eq_refl).
  destruct res as [|r res]; simpl; [done|].
  split; [|done]. by apply keeps_wf_new_tracker.
Qed.

Lemma keeps_wf_exec o h : keeps_wf h (exec o h).
Proof.
  destruct o as [| |this queryList predicate descend rd|this|this
                 |index this|node this|index this|queryList]; simpl.
  - intros Hh. split; [|simpl; rewrite length_app; lia].
    split; simpl.
    + apply tree_ordered_alloc, Hh.
    + rewrite length_app. simpl. apply Forall_app. split.
      * eapply Forall_impl; [apply Hh|]. intros q Hq. simpl in *. lia.
      * apply Forall_singleton. simpl. lia.
    + eapply Forall_impl; [apply Hh|]. intros t [Hs Hd].
      unfold valid_chain in *. simpl. rewrite length_app. simpl.
      split; (eapply Forall_impl; [done|]); intros p Hp; simpl in *; lia.
  - intros Hh. split; [|done]. apply keeps_wf_new_tracker; [done|constructor].
  - intros Hh. split; [|unfold track, createPredicate, mbind, M_bind,
        tracker_get, list_get;
      destruct (trackers h !! this); simpl; [|lia];
      destruct descend; destruct (lists h !! queryList); simpl; lia].
    unfold track, createPredicate, mbind, M_bind, tracker_get, list_get.
    destruct (trackers h !! this) as [t|] eqn:Ht; simpl; [|done].
    destruct (tracker_chains_valid h this t Hh Ht) as [Hs Hd].
    assert (Hq : ∀ q, lists h !! queryList = Some q ->
              _valuesTree q < length (arrays h)).
    { intros q Hq. pose proof (wf_lists _ Hh) as Hall.
      rewrite Forall_forall in Hall. apply Hall.
      by eapply list_elem_of_lookup_2. }
    assert (Hset : ∀ tr, valid_chain h (shallow tr) -> valid_chain h (deep tr) ->
              heap_wf (upd_trackers <[this := tr]> h)).
    { intros tr Hs' Hd'. apply heap_wf_trackers; [done|].
      pose proof (wf_trackers _ Hh) as Hall. rewrite Forall_forall in Hall |- *.
      intros x Hx. apply list_elem_of_lookup in Hx as [i Hi].
      apply list_lookup_insert_Some in Hi as [(-> & <- & _)|[_ Hi]]; [done|].
      apply Hall. by eapply list_elem_of_lookup_2. }
    destruct descend; destruct (lists h !! queryList) as [q|] eqn:El; simpl;
      try done; apply Hset; simpl; try done;
      constructor; try done; simpl; by apply Hq.
  - intros Hh. split; [|unfold child, mbind, M_bind, tracker_get;
      destruct (trackers h !! this) as [t|]; simpl; [|lia];
      destruct (deep t), (shallow t); simpl; lia].
    unfold child, mbind, M_bind, tracker_get.
    destruct (trackers h !! this) as [t|] eqn:Ht; simpl; [|done].
    destruct (tracker_chains_valid h this t Hh Ht) as [Hs Hd].
    destruct (deep t) as [|p ps] eqn:Ed; [done|].
    destruct (shallow t); simpl; [done|].
    by apply keeps_wf_new_tracker.
  - assert (Heq : container this h =
                  _clonePredicates this (insert_clone push_elem) h).
    { unfold container, _clonePredicates, mbind, M_bind.
      destruct (tracker_get this h); [|done].
      by rewrite container_loop_clone. }
    rewrite Heq. apply keeps_wf_clone_call.
    intros x vs e He. unfold push_elem in He.
    apply elem_of_app in He as [He|He]; [by right|].
    apply list_elem_of_singleton in He. by left.
  - assert (Heq : enterView index this h =
                  _clonePredicates this (insert_clone (splice_insert index)) h).
    { unfold enterView, _clonePredicates, mbind, M_bind.
      destruct (tracker_get this h); [|done].
      by rewrite enterView_loop_clone. }
    rewrite Heq. apply keeps_wf_clone_call.
    intros x vs e He. by apply splice_insert_sub in He.
  - revert h. change (stable keeps_wf (addNode node this)). unfold addNode.
    stable_step; [stable_step|]. stable_step; [apply keeps_wf_add|].
    stable_step; [stable_step|]. apply keeps_wf_add.
  - revert h. change (stable keeps_wf (removeView index this)).
    unfold removeView. stable_step; [stable_step|].
    apply keeps_wf_removeView_loop.
  - apply keeps_wf_queryRefresh.
Qed.

(** Every heap that calls of the engine build from the empty heap is well
    formed. *)
Lemma run_heap_wf ops h : heap_wf h -> heap_wf (run ops h).
Proof.
  revert h. induction ops as [|o ops IH]; intros h Hh; simpl; [done|].
  apply IH. by apply keeps_wf_exec.
Qed.

(** [queryRefresh] returns on every query list of a heap that calls of the
    engine built from the empty heap, whatever the calls were and whether
    they threw: the walk over the value tree ends and no reference
    dangles.  The result is the dirty flag the list had. *)
Lemma queryRefresh_returns ops queryList q :
  let h := run ops empty_heap in
  lists h !! queryList = Some q ->
  ∃ h', queryRefresh queryList h = Ok (dirty q) h'.
Proof.
  intros h Hq.
  pose proof (run_heap_wf ops empty_heap heap_wf_empty) as Hh. fold h in Hh.
  assert (Htree : _valuesTree q < length (arrays h)).
  { pose proof (wf_lists _ Hh) as Hall. rewrite Forall_forall in Hall.
    apply Hall. by eapply list_elem_of_lookup_2. }
  destruct (dirty q) eqn:Hd.
  - destruct (flatten_total _ _ (wf_ordered _ Hh) Htree) as [vs Hvs].
    eexists. by apply (queryRefresh_dirty queryList h q vs).
  - exists h. by apply (queryRefresh_clean queryList h q).
Qed.

End WellFormed.

(** The test of [removeView] is on the slot, not on the matched values: a
    view that holds nothing but an empty container has a slot that is not
    empty, and removing it marks the list dirty although the values do not
    change. *)
Example removeView_view_with_container :
  view_slot heap_view_with_container 0
    {| qlist := 0; type := Some 1; selector := None; read := None; values := 1 |}
    = Some (2, [EArr 3]) ∧
  flatten (arrays heap_view_with_container) 2 = Some [] ∧
  is_dirty heap_view_with_container 0 = Some false ∧
  is_dirty (heap_of (@removeView devEnv 0 1 heap_view_with_container)) 0
    = Some true.
Proof. repeat split. Qed.

(** * Further properties of the engine *)

(** ** Trackers without deep predicates *)

Section NoDeep.
Context {env : BuildEnv}.

(** On a tracker without deep predicates [child], [container] and
    [enterView] return [null] and allocate nothing, and [removeView] does
    nothing: no descendant scope needs a tracker, whatever the shallow
    chain holds. *)
Theorem no_deep_no_descendant (index : Z) (this : loc) (h : Heap) (t : LQueries_) :
  trackers h !! this = Some t ->
  deep t = [] ->
  child this h = Ok None h ∧
  container this h = Ok None h ∧
  enterView index this h = Ok None h ∧
  removeView index this h = Ok tt h.
Proof.
  intros Ht Hd. repeat split.
  - unfold child. rewrite (bind_ok _ _ _ _ _ (tracker_get_ok _ _ _ Ht)).
    by rewrite Hd.
  - unfold container. rewrite (bind_ok _ _ _ _ _ (tracker_get_ok _ _ _ Ht)).
    by rewrite Hd.
  - unfold enterView. rewrite (bind_ok _ _ _ _ _ (tracker_get_ok _ _ _ Ht)).
    by rewrite Hd.
  - unfold removeView. rewrite (bind_ok _ _ _ _ _ (tracker_get_ok _ _ _ Ht)).
    by rewrite Hd.
Qed.

End NoDeep.

Lemma no_deep_no_descendant_witness :
  let h := upd_trackers (.++ [{| shallow := [fooPredicate]; deep := [] |}])
             heap_one_deep in
  container 1 h = Ok None h ∧ @removeView devEnv 0 1 h = Ok tt h.
Proof.
  intros h.
  destruct (@no_deep_no_descendant devEnv 0 1 h _ eq_refl eq_refl)
    as (_ & Hc & _ & Hr).
  by split.
Defined.

(** ** The scans of the matcher *)

Section Scans.
Context {env : BuildEnv}.

Lemma directive_scan_found tData type i count j :
  directive_scan tData type i count = inr (Some j) ->
  (i <= j < i + Z.of_nat count)%Z ∧
  (∃ def, js_lookup tData j = Some def ∧ directive_matches type def = true) ∧
  (∀ k, (i <= k < j)%Z ->
     ∃ d, js_lookup tData k = Some d ∧ directive_matches type d = false).
Proof.
  revert i. induction count as [|c IH]; intros i; simpl; [done|].
  destruct (js_lookup tData i) as [def|] eqn:Ei; [|done].
  fold (directive_matches type def).
  destruct (directive_matches type def) eqn:Em.
  - intros [= <-]. split; [lia|]. split; [by exists def|]. intros k Hk. lia.
  - intros Hscan. destruct (IH _ Hscan) as (Hr & Hdef & Hfirst).
    split; [lia|]. split; [done|]. intros k Hk.
    destruct (decide (k = i)) as [->|Hne]; [by exists def|].
    apply Hfirst. lia.
Qed.

Lemma directive_scan_none tData type i count :
  directive_scan tData type i count = inr None <->
  ∀ k, (i <= k < i + Z.of_nat count)%Z ->
    ∃ d, js_lookup tData k = Some d ∧ directive_matches type d = false.
Proof.
  revert i. induction count as [|c IH]; intros i; simpl.
  { split; [intros _ k Hk; lia|done]. }
  destruct (js_lookup tData i) as [def|] eqn:Ei.
  - fold (directive_matches type def).
    destruct (directive_matches type def) eqn:Em.
    + split; [done|]. intros Hall. destruct (Hall i) as (d & Hd & Hm); [lia|].
      congruence.
    + rewrite IH. split.
      * intros Hall k Hk. destruct (decide (k = i)) as [->|Hne]; [by exists def|].
        apply Hall. lia.
      * intros Hall k Hk. apply Hall. lia.
  - split; [done|]. intros Hall. destruct (Hall i) as (d & Hd & _); [lia|].
    congruence.
Qed.

Lemma directive_scan_error tData type i count e :
  directive_scan tData type i count = inl e ->
  e = TypeError ∧
  ∃ k, (i <= k < i + Z.of_nat count)%Z ∧ js_lookup tData k = None ∧
       ∀ k', (i <= k' < k)%Z ->
         ∃ d, js_lookup tData k' = Some d ∧ directive_matches type d = false.
Proof.
  revert i. induction count as [|c IH]; intros i; simpl; [done|].
  destruct (js_lookup tData i) as [def|] eqn:Ei.
  - fold (directive_matches type def).
    destruct (directive_matches type def) eqn:Em; [done|].
    intros Hscan. destruct (IH _ Hscan) as (-> & k & Hk & Hnone & Hbefore).
    split; [done|]. exists k. split; [lia|]. split; [done|].
    intros k' Hk'. destruct (decide (k' = i)) as [->|Hne]; [by exists def|].
    apply Hbefore. lia.
  - intros [= <-]. split; [done|]. exists i. split; [lia|]. split; [done|].
    intros k' Hk'. lia.
Qed.

Lemma directive_count node :
  let count := Z.to_nat (directive_start node + directive_size node
                         - directive_start node) in
  ∀ k, (directive_start node <= k < directive_start node + Z.of_nat count)%Z <->
       (directive_start node <= k < directive_start node + directive_size node)%Z.
Proof. intros count k. unfold count. lia. Qed.

(** The index that [geIdxOfMatchingDirective] finds is an index of the
    directives of the node, the slot there is a public directive of the
    type looked for, and no directive of the node before it is: directives
    that are not public are passed over, and of several directives of the
    type the first is found. *)
Theorem geIdxOfMatchingDirective_found (node : LNode) (type : option TypeToken)
    (j : Z) :
  geIdxOfMatchingDirective node type = inr (Some j) ->
  (directive_start node <= j < directive_start node + directive_size node)%Z ∧
  (∃ def, js_lookup (tData node) j = Some def ∧
          diPublic def = true ∧ Some (dtype def) = type) ∧
  (∀ k, (directive_start node <= k < j)%Z ->
     ∃ d, js_lookup (tData node) k = Some d ∧
          (diPublic d = false ∨ Some (dtype d) ≠ type)).
Proof.
  unfold geIdxOfMatchingDirective.
  fold (directive_start node). fold (directive_size node).
  intros Hscan. apply directive_scan_found in Hscan as (Hr & Hdef & Hfirst).
  split; [by apply directive_count|]. split.
  - destruct Hdef as (def & Hdef & Hm). exists def. split; [done|].
    unfold directive_matches in Hm. apply andb_true_iff in Hm as [Hp Ht].
    split; [done|]. by apply bool_decide_eq_true in Ht.
  - intros k Hk. destruct (Hfirst k Hk) as (d & Hd & Hm). exists d.
    split; [done|]. unfold directive_matches in Hm.
    apply andb_false_iff in Hm as [Hp|Ht]; [by left|right].
    by apply bool_decide_eq_false in Ht.
Qed.

(** [geIdxOfMatchingDirective] finds nothing exactly when every directive
    slot of the node is in the directive table and none is a public
    directive of the type; it throws only when a slot of the node lies
    outside the table and no slot before it matched, and then with a
    [TypeError]. *)
Theorem geIdxOfMatchingDirective_none (node : LNode) (type : option TypeToken) :
  (geIdxOfMatchingDirective node type = inr None <->
   ∀ k, (directive_start node <= k < directive_start node + directive_size node)%Z ->
     ∃ d, js_lookup (tData node) k = Some d ∧
          (diPublic d = false ∨ Some (dtype d) ≠ type)) ∧
  (∀ e, geIdxOfMatchingDirective node type = inl e ->
     e = TypeError ∧
     ∃ k, (directive_start node <= k < directive_start node + directive_size node)%Z ∧
          js_lookup (tData node) k = None).
Proof.
  unfold geIdxOfMatchingDirective.
  fold (directive_start node). fold (directive_size node).
  assert (Hm : ∀ d, directive_matches type d = false <->
                    diPublic d = false ∨ Some (dtype d) ≠ type).
  { intros d. unfold directive_matches. rewrite andb_false_iff.
    by rewrite bool_decide_eq_false. }
  split.
  - rewrite directive_scan_none. split.
    + intros Hall k Hk. destruct (Hall k) as (d & Hd & Hd').
      { by apply directive_count. }
      exists d. split; [done|]. by apply Hm.
    + intros Hall k Hk. destruct (Hall k) as (d & Hd & Hd').
      { by apply directive_count in Hk. }
      exists d. split; [done|]. by apply Hm.
  - intros e Hscan.
    apply directive_scan_error in Hscan as (-> & k & Hk & Hnone & _).
    split; [done|]. exists k. split; [by apply directive_count in Hk|done].
Qed.

Lemma localNames_scan_found ln name idx :
  localNames_scan ln name = Some idx ->
  ∃ before after, ln = before ++ (name, idx) :: after ∧ name ∉ fst <$> before.
Proof.
  induction ln as [|[n i] ln IH]; simpl; [done|].
  destruct (decide (n = name)) as [->|Hne].
  - intros [= <-]. exists [], ln. split; [done|]. apply not_elem_of_nil.
  - intros Hscan. destruct (IH Hscan) as (before & after & -> & Hnot).
    exists ((n, i) :: before), after. split; [done|].
    rewrite fmap_cons. apply not_elem_of_cons. by split.
Qed.

Lemma localNames_scan_none ln name :
  localNames_scan ln name = None <-> name ∉ fst <$> ln.
Proof.
  induction ln as [|[n i] ln IH]; simpl.
  { split; [intros _; apply not_elem_of_nil|done]. }
  rewrite not_elem_of_cons. simpl.
  destruct (decide (n = name)) as [->|Hne].
  - split; [done|]. by intros [? _].
  - rewrite IH. split; [by split|by intros [_ ?]].
Qed.

(** [getIdxOfMatchingSelector] returns the index stored with the first
    occurrence of the name among the local names of the node, and [null]
    exactly when the node has no local names or the name is not one of
    them. *)
Theorem getIdxOfMatchingSelector_spec (tn : TNode) (name : string) :
  (∀ idx, getIdxOfMatchingSelector tn name = Some idx ->
     ∃ before after,
       localNames tn = Some (before ++ (name, idx) :: after) ∧
       name ∉ fst <$> before) ∧
  (getIdxOfMatchingSelector tn name = None <->
   ∀ ln, localNames tn = Some ln -> name ∉ fst <$> ln).
Proof.
  unfold getIdxOfMatchingSelector. destruct (localNames tn) as [ln|]; split.
  - intros idx Hscan.
    destruct (localNames_scan_found _ _ _ Hscan) as (before & after & -> & Hn).
    by exists before, after.
  - rewrite localNames_scan_none. split; [by intros Hn ? [= <-]|auto].
  - done.
  - split; [done|done].
Qed.

End Scans.

Lemma geIdxOfMatchingDirective_found_witness :
  let node := {| tData := [{| diPublic := false; dtype := 1 |};
                           {| diPublic := true; dtype := 2 |};
                           {| diPublic := true; dtype := 1 |};
                           {| diPublic := true; dtype := 1 |}];
                 data := [JObj 0; JObj 1; JObj 2; JObj 3];
                 flags := 16; tNode := None |} in
  @geIdxOfMatchingDirective devEnv node (Some 1) = inr (Some 2%Z) ∧
  (0 <= 2 < 0 + 4)%Z.
Proof.
  intros node. split; [done|].
  destruct (@geIdxOfMatchingDirective_found devEnv node (Some 1) 2 eq_refl)
    as (Hr & _). exact Hr.
Defined.

Lemma geIdxOfMatchingDirective_none_witness :
  @geIdxOfMatchingDirective devEnv (directiveNode 1 (JObj 7)) (Some 2)
    = inr None ∧
  ∀ e, @geIdxOfMatchingDirective devEnv
         {| tData := []; data := []; flags := 4; tNode := None |} (Some 1)
       = inl e -> e = TypeError.
Proof.
  split.
  - apply (@geIdxOfMatchingDirective_none devEnv). intros k Hk.
    assert (Hs : @directive_start devEnv (directiveNode 1 (JObj 7)) = 0%Z)
      by reflexivity.
    assert (Hz : @directive_size devEnv (directiveNode 1 (JObj 7)) = 1%Z)
      by reflexivity.
    rewrite Hs, Hz in Hk. assert (k = 0%Z) as -> by lia.
    eexists. split; [reflexivity|]. right. done.
  - intros e He.
    by destruct (proj2 (@geIdxOfMatchingDirective_none devEnv _ _) e He).
Defined.

Lemma getIdxOfMatchingSelector_spec_witness :
  let tn := {| localNames := Some [("a"%string, 3%Z); ("b"%string, (-1)%Z);
                                   ("a"%string, 5%Z)] |} in
  (∃ before after,
     localNames tn = Some (before ++ ("a"%string, 3%Z) :: after) ∧
     "a"%string ∉ fst <$> before) ∧
  getIdxOfMatchingSelector {| localNames := None |} "a" = None.
Proof.
  intros tn. split.
  - by apply (proj1 (getIdxOfMatchingSelector_spec tn "a") 3%Z).
  - by apply (proj2 (getIdxOfMatchingSelector_spec {| localNames := None |} "a")).
Defined.

(** ** Reads with a token of their own *)

Section Reads.
Context {env : BuildEnv}.

(** A predicate by type whose read token is another type is matched by
    its own type and reads the other: the value appended is the instance
    of the directive of the read type on the node, and a node that has the
    type of the predicate but no public directive of the read type is not
    appended at all. *)
Theorem add_type_reads_token (p : QueryPredicate) (node : LNode) (h : Heap)
    (T T2 : TypeToken) (idx : Z) :
  type p = Some T -> read p = Some (ReadType T2) ->
  geIdxOfMatchingDirective node (Some T) = inr (Some idx) ->
  (∀ j vs q,
     geIdxOfMatchingDirective node (Some T2) = inr (Some j) ->
     js_index JUndefined (data node) j ≠ JNull ->
     arrays h !! values p = Some vs -> lists h !! qlist p = Some q ->
     add_one p node h =
     Ok tt {| arrays := <[values p := vs ++ [EVal (js_index JUndefined (data node) j)]]>
                          (arrays h);
              lists := <[qlist p := set_dirty q]> (lists h);
              trackers := trackers h |}) ∧
  (geIdxOfMatchingDirective node (Some T2) = inr None ->
   add_one p node h = Ok tt h).
Proof.
  intros HT Hr Hscan. split.
  - intros j vs q Hj Hv Hvs Hq. unfold add_one, add_type.
    rewrite HT, Hr, Hscan. rewrite (bind_ok _ _ _ _ _ (lift_inr _ _)).
    change (default (ReadType T) (Some (ReadType T2))) with (ReadType T2).
    assert (Hread : readFromNodeInjector node (Some (ReadType T2)) idx =
                    inr (js_index JUndefined (data node) j)).
    { unfold readFromNodeInjector. by rewrite Hj. }
    rewrite Hread. rewrite (bind_ok _ _ _ _ _ (lift_inr _ _)).
    destruct (decide _) as [|_]; [done|]. by apply addMatch_ok.
  - intros Hnone. unfold add_one. rewrite HT.
    apply (add_type_null p T node h idx Hscan). rewrite Hr.
    unfold readFromNodeInjector. simpl. by rewrite Hnone.
Qed.

Lemma selector_matches_cons f node tn name names :
  selector_matches f node tn (name :: names) =
  match getIdxOfMatchingSelector tn name with
  | Some i =>
    if decide (f node i = JNull) then selector_matches f node tn names
    else f node i :: selector_matches f node tn names
  | None => selector_matches f node tn names
  end.
Proof.
  unfold selector_matches. simpl.
  destruct (getIdxOfMatchingSelector tn name) as [i|]; simpl; [|done].
  rewrite filter_cons. destruct (decide (f node i = JNull)) as [He|Hne].
  - destruct (decide (f node i ≠ JNull)); [done|done].
  - destruct (decide (f node i ≠ JNull)); [done|done].
Qed.

Lemma add_selector_reads p names node h tn f vs q :
  tNode node = Some tn -> read p = Some (ReadFromInjectorFn f) ->
  arrays h !! values p = Some vs -> lists h !! qlist p = Some q ->
  add_selector p names node h =
  Ok tt (if decide (selector_matches f node tn names = []) then h
         else {| arrays := <[values p := vs ++ (EVal <$> selector_matches f node tn names)]>
                             (arrays h);
                 lists := <[qlist p := set_dirty q]> (lists h);
                 trackers := trackers h |}).
Proof.
  intros Htn Hr. revert h vs q.
  induction names as [|n names IH]; intros h vs q Hvs Hq; [done|].
  rewrite selector_matches_cons.
  change (add_selector p (n :: names) node) with
    (dev_only (assertNotNull (tNode node) "node.tNode");;
     tn ← match tNode node with
          | Some tn => mret tn
          | None => throw TypeError
          end;
     match getIdxOfMatchingSelector tn n with
     | Some directiveIdx =>
       dev_only (assertNotNull (read p) "predicate.read");;
       result ← lift (readFromNodeInjector node (read p) directiveIdx);
       if decide (result = JNull) then mret tt else addMatch p result
     | None => mret tt
     end;;
     add_selector p names node).
  assert (Hdev : dev_only (assertNotNull (tNode node) "node.tNode") h = Ok tt h).
  { unfold dev_only. rewrite Htn. by destruct ngDevMode. }
  rewrite (bind_ok _ _ _ _ _ Hdev). rewrite Htn.
  rewrite (bind_ok _ _ h tn h) by done.
  destruct (getIdxOfMatchingSelector tn n) as [i|].
  2: { rewrite (bind_ok _ _ h tt h) by done. by apply IH. }
  assert (Hdev' : dev_only (assertNotNull (read p) "predicate.read") h = Ok tt h).
  { unfold dev_only. rewrite Hr. by destruct ngDevMode. }
  assert (Hread : readFromNodeInjector node (read p) i = inr (f node i)).
  { by rewrite Hr. }
  destruct (decide (f node i = JNull)) as [Hnull|Hval].
  - erewrite (bind_ok _ _ h tt h); [by apply IH|].
    rewrite (bind_ok _ _ _ _ _ Hdev'). rewrite Hread.
    rewrite (bind_ok _ _ _ _ _ (lift_inr _ _)).
    by destruct (decide (f node i = JNull)).
  - erewrite (bind_ok _ _ h tt); cycle 1.
    { rewrite (bind_ok _ _ _ _ _ Hdev'). rewrite Hread.
      rewrite (bind_ok _ _ _ _ _ (lift_inr _ _)).
      destruct (decide (f node i = JNull)); [contradiction|].
      by apply (addMatch_ok p (f node i) h vs q). }
    assert (Hlv : values p < length (arrays h)) by (by eapply lookup_lt_Some).
    assert (Hlq : qlist p < length (lists h)) by (by eapply lookup_lt_Some).
    erewrite IH; cycle 1.
    { simpl. by apply list_lookup_insert_eq. }
    { simpl. by apply list_lookup_insert_eq. }
    destruct (decide (f node i :: selector_matches f node tn names = []));
      [done|].
    destruct (decide (selector_matches f node tn names = [])) as [->|Hne].
    + done.
    + simpl. rewrite !list_insert_insert_eq, <- app_assoc. done.
Qed.

(** A predicate by selector with a read function: for every name of the
    selector that the node carries, in the order of the selector, the
    function is called with the index stored for the name, and the results
    that are not [null] are appended to the value tree, one for every
    name; the list becomes dirty when there is one, and nothing changes
    when there is none. *)
Theorem add_selector_spec (p : QueryPredicate) (node : LNode) (h : Heap)
    (names : list string) (tn : TNode) (f : LNode -> Z -> jsval)
    (vs : list elem) (q : QueryList_) :
  type p = None -> selector p = Some names ->
  read p = Some (ReadFromInjectorFn f) -> tNode node = Some tn ->
  arrays h !! values p = Some vs -> lists h !! qlist p = Some q ->
  let ms := selector_matches f node tn names in
  (ms = [] -> add_one p node h = Ok tt h) ∧
  (ms ≠ [] ->
   add_one p node h =
   Ok tt {| arrays := <[values p := vs ++ (EVal <$> ms)]> (arrays h);
            lists := <[qlist p := set_dirty q]> (lists h);
            trackers := trackers h |}).
Proof.
  intros HT Hsel Hr Htn Hvs Hq ms. unfold add_one. rewrite HT, Hsel.
  rewrite (add_selector_reads p names node h tn f vs q Htn Hr Hvs Hq).
  fold ms. split; intros Hms; by destruct (decide (ms = [])).
Qed.

End Reads.

Lemma add_type_reads_token_witness :
  arrays (heap_of (@add_one devEnv readOtherPredicate twoDirectiveNode
                     heap_one_deep)) !! 0 = Some [EVal (JObj 2)] ∧
  @add_one devEnv readOtherPredicate (directiveNode 1 (JObj 7)) heap_one_deep
    = Ok tt heap_one_deep.
Proof.
  split.
  - destruct (@add_type_reads_token devEnv readOtherPredicate twoDirectiveNode
                heap_one_deep 1 2 0%Z eq_refl eq_refl eq_refl) as [H _].
    by rewrite (H 1%Z [] _ eq_refl ltac:(done) eq_refl eq_refl).
  - destruct (@add_type_reads_token devEnv readOtherPredicate
                (directiveNode 1 (JObj 7)) heap_one_deep 1 2 0%Z
                eq_refl eq_refl eq_refl) as [_ H].
    by apply H.
Defined.

Lemma add_selector_spec_witness :
  arrays (heap_of (@add_one devEnv abcPredicate caNode heap_one_deep)) !! 0
    = Some [EVal (JObj 3); EVal (JObj 5)] ∧
  @add_one devEnv abcPredicate (namedNode "d") heap_one_deep
    = Ok tt heap_one_deep.
Proof.
  split.
  - destruct (@add_selector_spec devEnv abcPredicate caNode heap_one_deep
                _ _ readIndex [] _ eq_refl eq_refl eq_refl eq_refl
                eq_refl eq_refl) as [_ H].
    by rewrite H.
  - destruct (@add_selector_spec devEnv abcPredicate (namedNode "d")
                heap_one_deep _ _ readIndex [] _ eq_refl eq_refl eq_refl
                eq_refl eq_refl eq_refl) as [H _].
    by apply H.
Defined.

(** ** [removeView] outside the value tree *)

Lemma splice_remove_past_end {A} (index : Z) (l : list A) :
  (Z.of_nat (length l) <= index)%Z -> splice_remove index l = ([], l).
Proof.
  intros Hi. unfold splice_remove.
  assert (Hs : splice_start index (length l) = length l).
  { unfold splice_start. destruct (Z.ltb_spec index 0); lia. }
  rewrite Hs. rewrite drop_all. simpl.
  by rewrite take_ge, drop_ge, app_nil_r by lia.
Qed.

Lemma upd_arrays_id h a vs :
  arrays h !! a = Some vs -> upd_arrays (<[a := vs]>) h = h.
Proof.
  intros Hvs. unfold upd_arrays. rewrite list_insert_id by done. by destruct h.
Qed.

Section OutOfRange.
Context {env : BuildEnv}.

(** [removeView] at an index past the end of the value tree of the first
    deep predicate removes nothing and throws: in a development build the
    assertion on [removed.length] fails, in a production build reading
    [removed[0].length] is a [TypeError].  The heap is as it was, and the
    predicates after the first are not reached. *)
Theorem removeView_out_of_range (index : Z) (this : loc) (h : Heap)
    (t : LQueries_) (p : QueryPredicate) (next : list QueryPredicate)
    (vs : list elem) :
  trackers h !! this = Some t ->
  deep t = p :: next ->
  arrays h !! values p = Some vs ->
  (Z.of_nat (length vs) <= index)%Z ->
  removeView index this h =
  Throw (if ngDevMode then AssertionError "removed.length" else TypeError) h.
Proof.
  intros Ht Hd Hvs Hi. unfold removeView.
  rewrite (bind_ok _ _ _ _ _ (tracker_get_ok _ _ _ Ht)). rewrite Hd.
  change (removeView_loop index (p :: next)) with
    (vs ← arr_get (values p);
     let '(removed, remaining) := splice_remove index vs in
     arr_set (values p) remaining;;
     dev_only (assertEqual (length removed) 1 "removed.length");;
     len ← removed_length removed;
     (if decide (len = 0) then mret tt else QueryList.setDirty (qlist p));;
     removeView_loop index next).
  rewrite (bind_ok _ _ _ _ _ (arr_get_ok _ _ _ Hvs)).
  rewrite (splice_remove_past_end index vs Hi).
  erewrite (bind_ok _ _ h tt h); cycle 1.
  { unfold arr_set. by rewrite (upd_arrays_id h _ _ Hvs). }
  unfold dev_only. destruct ngDevMode.
  - by apply bind_throw.
  - rewrite (bind_ok _ _ h tt h) by done. by apply bind_throw.
Qed.

End OutOfRange.

Lemma removeView_out_of_range_witness :
  @removeView devEnv 2 1 heap_two_views =
    Throw (AssertionError "removed.length") heap_two_views ∧
  @removeView prodEnv 2 1 heap_two_views = Throw TypeError heap_two_views.
Proof.
  split.
  - apply (@removeView_out_of_range devEnv 2 1 heap_two_views _ _ []
             [EArr 2; EArr 3] eq_refl eq_refl eq_refl). simpl. lia.
  - apply (@removeView_out_of_range prodEnv 2 1 heap_two_views _ _ []
             [EArr 2; EArr 3] eq_refl eq_refl eq_refl). simpl. lia.
Defined.

(** ** Entering a view and removing it again *)

Lemma splice_insert_at_end {A} (index : Z) (x : A) (l : list A) :
  (Z.of_nat (length l) <= index)%Z -> splice_insert index x l = l ++ [x].
Proof.
  intros Hi. unfold splice_insert.
  assert (Hs : splice_start index (length l) = length l).
  { unfold splice_start. destruct (Z.ltb_spec index 0); lia. }
  by rewrite Hs, take_ge, drop_ge by lia.
Qed.

(** The result of the cloning loop as a whole, for [container] and for
    [enterView]. *)
Lemma clone_call_result ins this h t :
  trackers h !! this = Some t ->
  deep t ≠ [] ->
  NoDup (values <$> deep t) ->
  valid_chain h (deep t) ->
  ∃ h1,
    _clonePredicates this (insert_clone ins) h =
      Ok (Some (length (trackers h)))
         (upd_trackers (.++ [{| shallow := [];
              deep := clones_at (length (arrays h)) (deep t) |}]) h1) ∧
    lists h1 = lists h ∧ trackers h1 = trackers h ∧
    length (arrays h1) = length (arrays h) + length (deep t) ∧
    (∀ k p, deep t !! k = Some p ->
       ∃ vs, arrays h !! values p = Some vs ∧
             arrays h1 !! values p =
               Some (ins (EArr (length (arrays h) + k)) vs) ∧
             arrays h1 !! (length (arrays h) + k) = Some []) ∧
    (∀ a, a < length (arrays h) -> a ∉ values <$> deep t ->
       arrays h1 !! a = arrays h !! a).
Proof.
  intros Ht Hne Hnd Hall.
  destruct (clone_loop_contents ins (deep t) [] h Hnd Hall)
    as (h1 & Hloop & Hin & Hout).
  pose proof (clone_loop_shape _ _ _ _ _ _ Hloop) as (_ & Hlen & Hl & Htr).
  rewrite app_nil_r in Hloop.
  assert (Hres : clones_at (length (arrays h)) (deep t) ≠ []).
  { intros Hnil. apply (f_equal length) in Hnil.
    rewrite clones_at_length in Hnil. by destruct (deep t). }
  exists h1. split; [|done].
  unfold _clonePredicates.
  rewrite (bind_ok _ _ _ _ _ (tracker_get_ok _ _ _ Ht)).
  rewrite (bind_ok _ _ _ _ _ Hloop).
  rewrite new_tracker_for by done. by rewrite Htr.
Qed.

Lemma enterView_as_clone index this h :
  enterView index this h =
  _clonePredicates this (insert_clone (splice_insert index)) h.
Proof.
  unfold enterView, _clonePredicates, mbind, M_bind.
  destruct (tracker_get this h); [|done]. by rewrite enterView_loop_clone.
Qed.

Lemma container_as_clone this h :
  container this h = _clonePredicates this (insert_clone push_elem) h.
Proof.
  unfold container, _clonePredicates, mbind, M_bind.
  destruct (tracker_get this h); [|done]. by rewrite container_loop_clone.
Qed.

(** [enterView] at an index that is at or past the end of the value tree
    of every deep predicate is [container]: both push the new arrays at
    the end and return the same tracker, on the same heap. *)
Theorem enterView_at_end_is_container (index : Z) (this : loc) (h : Heap)
    (t : LQueries_) :
  trackers h !! this = Some t ->
  NoDup (values <$> deep t) ->
  valid_chain h (deep t) ->
  (∀ p vs, p ∈ deep t -> arrays h !! values p = Some vs ->
     (Z.of_nat (length vs) <= index)%Z) ->
  enterView index this h = container this h.
Proof.
  intros Ht Hnd Hall Hend.
  destruct (decide (deep t = [])) as [Hnil|Hne].
  { unfold enterView, container.
    rewrite !(bind_ok _ _ _ _ _ (tracker_get_ok _ _ _ Ht)). by rewrite Hnil. }
  rewrite enterView_as_clone, container_as_clone.
  destruct (clone_call_result (splice_insert index) this h t Ht Hne Hnd Hall)
    as (h1 & -> & Hl1 & Ht1 & Hlen1 & Hin1 & Hout1).
  destruct (clone_call_result push_elem this h t Ht Hne Hnd Hall)
    as (h2 & -> & Hl2 & Ht2 & Hlen2 & Hin2 & Hout2).
  assert (Harr : arrays h1 = arrays h2).
  { apply list_eq. intros i.
    destruct (decide (i < length (arrays h))) as [Hlt|Hge].
    - destruct (decide (i ∈ values <$> deep t)) as [Hi|Hi].
      + apply list_elem_of_fmap in Hi as (p & -> & Hp).
        pose proof Hp as Hp'. apply list_elem_of_lookup in Hp' as [k Hk].
        destruct (Hin1 k p Hk) as (vs & Hvs & -> & _).
        destruct (Hin2 k p Hk) as (vs' & Hvs' & -> & _).
        simplify_eq. f_equal. apply splice_insert_at_end. by eapply Hend.
      + by rewrite Hout1, Hout2.
    - destruct (decide (i < length (arrays h) + length (deep t))) as [Hlt|Hge'].
      + destruct (lookup_lt_is_Some_2 (deep t) (i - length (arrays h)))
          as [p Hp]; [lia|].
        destruct (Hin1 _ p Hp) as (_ & _ & _ & He1).
        destruct (Hin2 _ p Hp) as (_ & _ & _ & He2).
        replace (length (arrays h) + (i - length (arrays h))) with i
          in He1, He2 by lia.
        by rewrite He1, He2.
      + rewrite !lookup_ge_None_2; [done|lia|lia]. }
  destruct h1, h2. simpl in *. by subst.
Qed.

Section RoundTrip.
Context {env : BuildEnv}.

(** Entering a view at an index within the value trees and removing the
    view at that index again, with nothing matched in between, brings
    every value tree back to what it was and leaves every list as it was,
    dirty flag included: what stays is the empty array of the view and
    its tracker. *)
Theorem enterView_removeView (index : Z) (this : loc) (h : Heap) (t : LQueries_) :
  trackers h !! this = Some t ->
  deep t ≠ [] ->
  NoDup (values <$> deep t) ->
  valid_chain h (deep t) ->
  Forall (fun p => is_Some (lists h !! qlist p)) (deep t) ->
  (∀ p vs, p ∈ deep t -> arrays h !! values p = Some vs ->
     (0 <= index <= Z.of_nat (length vs))%Z) ->
  ∃ fresh h1 h2,
    enterView index this h = Ok (Some fresh) h1 ∧
    removeView index this h1 = Ok tt h2 ∧
    (∀ a, a < length (arrays h) -> arrays h2 !! a = arrays h !! a) ∧
    lists h2 = lists h ∧
    (∀ c, c < length (trackers h) -> trackers h2 !! c = trackers h !! c).
Proof.
  intros Ht Hne Hnd Hall Hlists Hrange.
  destruct (clone_call_result (splice_insert index) this h t Ht Hne Hnd Hall)
    as (h0 & Hrun & Hl & Htr & Hlen & Hin & Hout).
  set (h1 := upd_trackers (.++ [{| shallow := [];
              deep := clones_at (length (arrays h)) (deep t) |}]) h0) in *.
  assert (Hold : ∀ p, p ∈ deep t -> values p < length (arrays h)).
  { unfold valid_chain in Hall. by rewrite Forall_forall in Hall. }
  assert (Hslot : ∀ k p, deep t !! k = Some p ->
            view_slot h1 index p = Some (length (arrays h) + k, [])).
  { intros k p Hk. destruct (Hin k p Hk) as (vs & Hvs & Hvs' & Hnew).
    assert (Hi : (0 <= index <= Z.of_nat (length vs))%Z).
    { eapply Hrange; [|done]. by eapply list_elem_of_lookup_2. }
    apply view_slot_Some. exists (splice_insert index (EArr (length (arrays h) + k)) vs).
    split; [done|]. split; [lia|]. split; [|done].
    rewrite splice_insert_in_range by done.
    rewrite lookup_app_r; rewrite length_take; [|lia].
    by replace (Z.to_nat index - Z.to_nat index `min` length vs) with 0 by lia. }
  assert (Hviews : views_at h1 index (deep t)).
  { split; [done|]. apply Forall_forall. intros p Hp.
    pose proof Hp as Hp'. apply list_elem_of_lookup in Hp' as [k Hk].
    exists (length (arrays h) + k), []. split; [by apply Hslot|]. split.
    - intros Hin'. apply list_elem_of_fmap in Hin' as (p' & Heq & Hp'').
      specialize (Hold p' Hp''). lia.
    - simpl. rewrite Hl. rewrite Forall_forall in Hlists. by apply Hlists. }
  destruct (removeView_loop_views index (deep t) h1 Hviews)
    as (h2 & Hloop & Htr2 & Hframe & Hcont & _ & _ & Hkeep).
  exists (length (trackers h)), h1, h2.
  split; [by rewrite enterView_as_clone|]. split; [|split; [|split]].
  - unfold removeView. erewrite bind_ok; [done|]. apply tracker_get_ok.
    simpl. rewrite Htr. by apply lookup_app_l_Some.
  - intros a Ha. destruct (decide (a ∈ values <$> deep t)) as [Hi|Hi].
    + apply list_elem_of_fmap in Hi as (p & -> & Hp).
      pose proof Hp as Hp'. apply list_elem_of_lookup in Hp' as [k Hk].
      destruct (Hin k p Hk) as (vs & Hvs & Hvs' & _).
      rewrite (Hcont p _ Hp Hvs'), Hvs. f_equal.
      assert (Hi : (0 <= index <= Z.of_nat (length vs))%Z) by (by eapply Hrange).
      rewrite splice_insert_in_range by done.
      replace (Z.to_nat index) with (length (take (Z.to_nat index) vs)) at 1
        by (rewrite length_take; lia).
      by rewrite delete_middle, take_drop.
    + rewrite (Hframe a Hi). simpl. by apply Hout.
  - rewrite <- Hl. apply list_eq. intros l. apply Hkeep.
    intros p Hp _. apply list_elem_of_lookup in Hp as [k Hk].
    unfold slot_nonempty. by rewrite (Hslot k p Hk).
  - intros c Hc. rewrite Htr2. simpl. rewrite Htr. by apply lookup_app_l.
Qed.

End RoundTrip.

Lemma enterView_at_end_is_container_witness :
  enterView 2 1 heap_two_views = container 1 heap_two_views ∧
  enterView 7 1 heap_two_views = container 1 heap_two_views.
Proof.
  assert (H : ∀ i, (2 <= i)%Z ->
            enterView i 1 heap_two_views = container 1 heap_two_views).
  { intros i Hi.
    apply (enterView_at_end_is_container i 1 heap_two_views _ eq_refl).
    - apply NoDup_singleton.
    - by repeat constructor.
    - intros p vs Hp Hvs. apply list_elem_of_singleton in Hp as ->.
      simpl in Hvs. simplify_eq. simpl. lia. }
  split; apply H; lia.
Defined.

Lemma enterView_removeView_witness :
  ∃ fresh h1 h2,
    enterView 1 1 heap_fresh_views = Ok (Some fresh) h1 ∧
    @removeView devEnv 1 1 h1 = Ok tt h2 ∧
    arrays h2 !! 1 = Some [EArr 2; EArr 3] ∧
    lists h2 = lists heap_fresh_views.
Proof.
  destruct (@enterView_removeView devEnv 1 1 heap_fresh_views _ eq_refl)
    as (fresh & h1 & h2 & He & Hr & Ha & Hl & _).
  - done.
  - apply NoDup_singleton.
  - by repeat constructor.
  - apply Forall_singleton. by eexists.
  - intros p vs Hp Hvs. apply list_elem_of_singleton in Hp as ->.
    simpl in Hvs. simplify_eq. simpl. lia.
  - exists fresh, h1, h2. split; [done|]. split; [done|]. split; [|done].
    rewrite Ha; [done|simpl; lia].
Defined.


(** ** Calls that write to arrays and dirty flags only *)

#[global] Instance same_trackers_refl : Reflexive same_trackers.
Proof. by intros h. Qed.
#[global] Instance same_trackers_trans : Transitive same_trackers.
Proof. intros h1 h2 h3. unfold same_trackers. congruence. Qed.

#[global] Instance lists_kept_refl : Reflexive lists_kept.
Proof. intros h l q Hq. by exists q. Qed.
#[global] Instance lists_kept_trans : Transitive lists_kept.
Proof.
  intros h1 h2 h3 H12 H23 l q Hq.
  destruct (H12 l q Hq) as (q2 & Hq2 & Hv2 & Hc2 & Ht2 & Hd2).
  destruct (H23 l q2 Hq2) as (q3 & Hq3 & Hv3 & Hc3 & Ht3 & Hd3).
  exists q3. split; [done|]. repeat split; try congruence. auto.
Qed.

Section ListPrograms.
Context {env : BuildEnv}.
Context (R : Heap -> Heap -> Prop) `{!Reflexive R} `{!Transitive R}.
Hypothesis R_arrays : ∀ h f, R h (upd_arrays f h).
Hypothesis R_setDirty : ∀ l, stable R (QueryList.setDirty l).

Lemma lp_arr_set a vs : stable R (arr_set a vs).
Proof. intros h. apply R_arrays. Qed.

Lemma lp_arr_new : stable R arr_new.
Proof. intros h. apply R_arrays. Qed.

Lemma lp_addMatch p v : stable R (addMatch p v).
Proof.
  unfold addMatch, arr_push. repeat stable_step; [apply lp_arr_set|done].
Qed.

Lemma lp_add_one p node : stable R (add_one p node).
Proof.
  unfold add_one. destruct (type p) as [T|].
  - unfold add_type. repeat stable_step. apply lp_addMatch.
  - destruct (selector p) as [names|]; [|stable_step].
    induction names as [|n names IH]; simpl; [stable_step|].
    unfold dev_only, assertNotNull.
    repeat stable_step; try done; apply lp_addMatch.
Qed.

Lemma lp_add ps node : stable R (add ps node).
Proof.
  induction ps as [|p ps IH]; simpl; [stable_step|].
  stable_step; [apply lp_add_one|done].
Qed.

Lemma lp_addNode node this : stable R (addNode node this).
Proof.
  unfold addNode. stable_step; [stable_step|]. stable_step; [apply lp_add|].
  stable_step; [stable_step|]. apply lp_add.
Qed.

Lemma lp_removeView_loop index ps : stable R (removeView_loop index ps).
Proof.
  induction ps as [|p ps IH]; simpl; [stable_step|].
  stable_step; [stable_step|].
  destruct (splice_remove index a) as [removed remaining].
  stable_step; [apply lp_arr_set|].
  unfold dev_only, assertEqual, removed_length.
  repeat stable_step; done.
Qed.

Lemma lp_removeView index this : stable R (removeView index this).
Proof.
  unfold removeView. stable_step; [stable_step|]. apply lp_removeView_loop.
Qed.

Lemma lp_clone_loop ins ps acc :
  stable R (_clonePredicates_loop (insert_clone ins) ps acc).
Proof.
  revert acc. induction ps as [|p ps IH]; intros acc; simpl; [stable_step|].
  stable_step; [|done]. unfold insert_clone.
  stable_step; [apply lp_arr_new|]. repeat stable_step. apply lp_arr_set.
Qed.

End ListPrograms.

(** ** What changes a query list *)

Lemma lists_kept_arrays h f : lists_kept h (upd_arrays f h).
Proof. intros l q Hq. by exists q. Qed.

Lemma lists_kept_trackers h f : lists_kept h (upd_trackers f h).
Proof. intros l q Hq. by exists q. Qed.

Lemma lists_kept_setDirty l0 : stable lists_kept (QueryList.setDirty l0).
Proof.
  intros h. unfold QueryList.setDirty, mbind, M_bind, list_get.
  destruct (lists h !! l0) as [q0|] eqn:Hq0; simpl; [|reflexivity].
  intros l q Hq. destruct (decide (l = l0)) as [->|Hne].
  - simplify_eq. eexists. split.
    + simpl. apply list_lookup_insert_eq. by eapply lookup_lt_Some.
    + done.
  - exists q. simpl. by rewrite list_lookup_insert_ne.
Qed.

Lemma lists_kept_list_new q0 : stable lists_kept (list_new q0).
Proof.
  intros h l q Hq. exists q. split; [|done]. simpl.
  by apply lookup_app_l_Some.
Qed.

Section Settled.
Context {env : BuildEnv}.

Lemma lists_kept_exec o h : is_refresh o = false -> lists_kept h (exec o h).
Proof.
  destruct o as [| |this queryList predicate descend rd|this|this
                 |index this|node this|index this|queryList]; simpl;
    intros Hr; try done; revert h.
  - change (stable lists_kept QueryList.new). unfold QueryList.new.
    stable_step; [intros h; apply lists_kept_arrays|].
    apply lists_kept_list_new.
  - change (stable lists_kept (newLQueries [])). unfold newLQueries.
    intros h. apply lists_kept_trackers.
  - change (stable lists_kept (track this queryList predicate descend rd)).
    unfold track, createPredicate.
    repeat stable_step; intros h; apply lists_kept_trackers.
  - change (stable lists_kept (child this)). unfold child, newLQueries.
    repeat stable_step. intros h. apply lists_kept_trackers.
  - change (stable lists_kept (container this)). unfold container, newLQueries.
    stable_step; [stable_step|]. stable_step.
    + intros h. rewrite container_loop_clone.
      apply (lp_clone_loop lists_kept lists_kept_arrays).
    + repeat stable_step. intros h. apply lists_kept_trackers.
  - change (stable lists_kept (enterView index this)).
    unfold enterView, newLQueries.
    stable_step; [stable_step|]. stable_step.
    + intros h. rewrite enterView_loop_clone.
      apply (lp_clone_loop lists_kept lists_kept_arrays).
    + repeat stable_step. intros h. apply lists_kept_trackers.
  - apply (lp_addNode lists_kept lists_kept_arrays lists_kept_setDirty).
  - apply (lp_removeView lists_kept lists_kept_arrays lists_kept_setDirty).
Qed.

(** Only [queryRefresh] changes the values of a query list and only it
    clears the dirty flag: after any calls without a refresh, every list
    has the values, the count of notifications and the value tree it had,
    and a list that was dirty is dirty.  In particular what [addNode]
    matches is not in the values before the next refresh. *)
Theorem values_wait_for_refresh (ops : list op) (h : Heap) :
  forallb (fun o => negb (is_refresh o)) ops = true ->
  ∀ l q, lists h !! l = Some q ->
    ∃ q', lists (run ops h) !! l = Some q' ∧
          _values q' = _values q ∧ changes q' = changes q ∧
          _valuesTree q' = _valuesTree q ∧
          (dirty q = true -> dirty q' = true).
Proof.
  revert h. induction ops as [|o ops IH]; intros h Hops; simpl.
  { intros l q Hq. by exists q. }
  simpl in Hops. apply andb_true_iff in Hops as [Ho Hops].
  apply negb_true_iff in Ho.
  intros l q Hq.
  destruct (lists_kept_exec o h Ho l q Hq) as (q1 & Hq1 & Hv1 & Hc1 & Ht1 & Hd1).
  destruct (IH (exec o h) Hops l q1 Hq1) as (q2 & Hq2 & Hv2 & Hc2 & Ht2 & Hd2).
  exists q2. split; [done|]. repeat split; try congruence. auto.
Qed.

End Settled.

Lemma values_wait_for_refresh_witness :
  ∃ q', lists (@run devEnv [OpAddNode (directiveNode 1 (JObj 11)) 3;
                            OpRemoveView 0 1] heap_fresh_views) !! 0 = Some q' ∧
        _values q' = [JObj 10] ∧ changes q' = 1.
Proof.
  destruct (@values_wait_for_refresh devEnv
              [OpAddNode (directiveNode 1 (JObj 11)) 3; OpRemoveView 0 1]
              heap_fresh_views eq_refl 0 _ eq_refl)
    as (q' & Hq' & Hv & Hc & _).
  by exists q'.
Defined.

(** ** What [addNode] writes *)

#[global] Instance arrays_extended_refl : Reflexive arrays_extended.
Proof.
  intros h. split; [done|]. intros a vs Hvs. exists [].
  rewrite app_nil_r. split; [done|apply not_elem_of_nil].
Qed.
#[global] Instance arrays_extended_trans : Transitive arrays_extended.
Proof.
  intros h1 h2 h3 [Hl12 H12] [Hl23 H23]. split; [congruence|].
  intros a vs Hvs. destruct (H12 a vs Hvs) as (ms1 & Hvs2 & Hn1).
  destruct (H23 a _ Hvs2) as (ms2 & Hvs3 & Hn2).
  exists (ms1 ++ ms2). rewrite fmap_app, app_assoc. split; [done|].
  rewrite elem_of_app. tauto.
Qed.

Lemma arrays_extended_lists h f : arrays_extended h (upd_lists f h).
Proof.
  split; [done|]. intros a vs Hvs. exists []. rewrite app_nil_r.
  split; [done|apply not_elem_of_nil].
Qed.

Lemma same_trackers_arrays h f : same_trackers h (upd_arrays f h).
Proof. done. Qed.

Lemma same_trackers_setDirty l : stable same_trackers (QueryList.setDirty l).
Proof.
  intros h. unfold QueryList.setDirty, mbind, M_bind, list_get.
  by destruct (lists h !! l).
Qed.

Section Appends.
Context {env : BuildEnv}.

Lemma arrays_extended_addMatch p v :
  v ≠ JNull -> stable arrays_extended (addMatch p v).
Proof.
  intros Hv. unfold addMatch.
  apply (stable_bind arrays_extended).
  - intros h. unfold arr_push, mbind, M_bind, arr_get.
    destruct (arrays h !! values p) as [vs|] eqn:Hvs; simpl; [|reflexivity].
    split; [simpl; by rewrite length_insert|].
    intros a ws Hws. destruct (decide (a = values p)) as [->|Hne].
    + simplify_eq. exists [v]. simpl. split.
      * apply list_lookup_insert_eq. by eapply lookup_lt_Some.
      * intros ?%list_elem_of_singleton. congruence.
    + exists []. simpl. rewrite app_nil_r, list_lookup_insert_ne by done.
      split; [done|apply not_elem_of_nil].
  - intros _. apply (stable_setDirty arrays_extended).
    apply arrays_extended_lists.
Qed.

Lemma arrays_extended_add_one p node : stable arrays_extended (add_one p node).
Proof.
  unfold add_one. destruct (type p) as [T|].
  - unfold add_type. repeat stable_step. by apply arrays_extended_addMatch.
  - destruct (selector p) as [names|]; [|stable_step].
    induction names as [|n names IH]; simpl; [stable_step|].
    unfold dev_only, assertNotNull.
    repeat stable_step; try done; by apply arrays_extended_addMatch.
Qed.

Lemma arrays_extended_add ps node : stable arrays_extended (add ps node).
Proof.
  induction ps as [|p ps IH]; simpl; [stable_step|].
  stable_step; [apply arrays_extended_add_one|done].
Qed.

(** [addNode] only appends: every array keeps the elements it had, in
    their order, and what comes after them are matched values, none of
    them [null] and none of them an array; no array is created and no
    tracker is changed, also when the call throws half way. *)
Theorem addNode_appends (node : LNode) (this : loc) (h : Heap) :
  let h' := heap_of (addNode node this h) in
  length (arrays h') = length (arrays h) ∧
  trackers h' = trackers h ∧
  ∀ a vs, arrays h !! a = Some vs ->
    ∃ ms, arrays h' !! a = Some (vs ++ (EVal <$> ms)) ∧ JNull ∉ ms.
Proof.
  intros h'.
  assert (Hext : arrays_extended h h').
  { revert h h'. change (stable arrays_extended (addNode node this)).
    unfold addNode. stable_step; [stable_step|].
    stable_step; [apply arrays_extended_add|].
    stable_step; [stable_step|]. apply arrays_extended_add. }
  destruct Hext as [Hlen Harr]. split; [done|]. split; [|done].
  apply (lp_addNode same_trackers same_trackers_arrays same_trackers_setDirty).
Qed.

End Appends.

Lemma addNode_appends_witness :
  ∃ ms, arrays (heap_of (@addNode devEnv (directiveNode 1 (JObj 11)) 2
                           heap_fresh_views)) !! 2
        = Some ([EVal (JObj 10)] ++ (EVal <$> ms)) ∧ JNull ∉ ms.
Proof.
  destruct (@addNode_appends devEnv (directiveNode 1 (JObj 11)) 2
              heap_fresh_views) as (_ & _ & H).
  by apply H.
Defined.

(** ** [query] *)

Section QuerySpec.
Context {env : BuildEnv}.

Lemma track_ok this queryList predicate descend rd h t q :
  trackers h !! this = Some t -> lists h !! queryList = Some q ->
  let p := {| qlist := queryList;
              type := match predicate with inl T => Some T | inr _ => None end;
              selector := match predicate with
                          | inl _ => None | inr names => Some names end;
              read := rd; values := _valuesTree q |} in
  track this queryList predicate descend rd h =
  Ok tt (upd_trackers
           (<[this := if descend
                      then {| shallow := shallow t; deep := p :: deep t |}
                      else {| shallow := p :: shallow t; deep := deep t |}]>) h).
Proof.
  intros Ht Hq p. unfold track.
  rewrite (bind_ok _ _ _ _ _ (tracker_get_ok _ _ _ Ht)).
  destruct descend; unfold createPredicate, mbind, M_bind, list_get;
    by rewrite Hq.
Qed.

Lemma query_call (assertPreviousIsParent : M unit) (queries : loc)
    (predicate : TypeToken + list string) (descend : bool)
    (rd : option ReadToken) (h : Heap) (t : LQueries_) :
  (ngDevMode = true -> assertPreviousIsParent h = Ok tt h) ->
  trackers h !! queries = Some t ->
  let l := length (lists h) in
  let a := length (arrays h) in
  let p := {| qlist := l;
              type := match predicate with inl T => Some T | inr _ => None end;
              selector := match predicate with
                          | inl _ => None | inr names => Some names end;
              read := rd; values := a |} in
  query assertPreviousIsParent (mret queries) predicate descend rd h =
  Ok l {| arrays := arrays h ++ [[]];
          lists := lists h ++ [{| dirty := true; changes := 0; _values := [];
                                  _valuesTree := a |}];
          trackers := <[queries :=
                          if descend
                          then {| shallow := shallow t; deep := p :: deep t |}
                          else {| shallow := p :: shallow t; deep := deep t |}]>
                        (trackers h) |}.
Proof.
  intros Hassert Ht l a p. unfold query.
  assert (Hdev : dev_only assertPreviousIsParent h = Ok tt h).
  { unfold dev_only. destruct ngDevMode; [by apply Hassert|done]. }
  rewrite (bind_ok _ _ _ _ _ Hdev).
  set (q := {| dirty := true; changes := 0; _values := []; _valuesTree := a |}).
  set (h1 := {| arrays := arrays h ++ [[]]; lists := lists h ++ [q];
                trackers := trackers h |}).
  assert (Hnew : QueryList.new h = Ok l h1) by done.
  rewrite (bind_ok _ _ _ _ _ Hnew).
  assert (Hcur : (mret queries : M loc) h1 = Ok queries h1) by done.
  rewrite (bind_ok _ _ _ _ _ Hcur).
  assert (Hq : lists h1 !! l = Some q).
  { subst h1 l. simpl. by rewrite lookup_app_r, Nat.sub_diag. }
  erewrite (bind_ok _ _ _ tt); [done|].
  by rewrite (track_ok _ _ _ _ _ _ t q).
Qed.

(** [query] on a render state whose current tracker is [queries]: it
    returns a new query list, which is dirty, holds no values and owns a
    new empty value tree, and puts one predicate for it in front of the
    tracker's deep chain (with [descend]) or shallow chain (without); the
    predicate writes into the list's own value tree.  Nothing else of the
    heap changes, and a well-formed heap stays well formed. *)
Theorem query_spec (assertPreviousIsParent : M unit) (queries : loc)
    (predicate : TypeToken + list string) (descend : bool)
    (rd : option ReadToken) (h : Heap) (t : LQueries_) :
  (ngDevMode = true -> assertPreviousIsParent h = Ok tt h) ->
  trackers h !! queries = Some t ->
  let l := length (lists h) in
  let a := length (arrays h) in
  let p := {| qlist := l;
              type := match predicate with inl T => Some T | inr _ => None end;
              selector := match predicate with
                          | inl _ => None | inr names => Some names end;
              read := rd; values := a |} in
  let h' :=
     {| arrays := arrays h ++ [[]];
        lists := lists h ++ [{| dirty := true; changes := 0; _values := [];
                                _valuesTree := a |}];
        trackers := <[queries :=
                          if descend
                          then {| shallow := shallow t; deep := p :: deep t |}
                          else {| shallow := p :: shallow t; deep := deep t |}]>
                        (trackers h) |} in
  query assertPreviousIsParent (mret queries) predicate descend rd h = Ok l h' ∧
  (heap_wf h -> heap_wf h').
Proof.
  intros Hassert Ht l a p h'. split; [by apply query_call|].
  intros Hh.
  assert (Hq : lists (heap_of (QueryList.new h)) !! l =
               Some {| dirty := true; changes := 0; _values := [];
                       _valuesTree := a |}).
  { subst l. simpl. by rewrite lookup_app_r, Nat.sub_diag. }
  assert (Hh' : h' = exec (OpTrack queries l predicate descend rd)
                       (exec OpNewQueryList h)).
  { simpl. by rewrite (track_ok _ _ _ _ _ (heap_of (QueryList.new h)) t _ Ht Hq). }
  rewrite Hh'. apply keeps_wf_exec. by apply keeps_wf_exec.
Qed.

(** A failed [assertPreviousIsParent] stops [query] in development mode
    before anything is created. *)
Lemma query_assert_fails assertPreviousIsParent getCurrentQueries
    predicate descend rd h e h' :
  ngDevMode = true -> assertPreviousIsParent h = Throw e h' ->
  query assertPreviousIsParent getCurrentQueries predicate descend rd h
  = Throw e h'.
Proof.
  intros Hdev Hthrow. unfold query.
  apply bind_throw. unfold dev_only. by rewrite Hdev.
Qed.

Lemma add_type_match p T node h idx vs q :
  read p = None ->
  geIdxOfMatchingDirective node (Some T) = inr (Some idx) ->
  js_index JUndefined (data node) idx ≠ JNull ->
  arrays h !! values p = Some vs -> lists h !! qlist p = Some q ->
  add_type p T node h =
  Ok tt {| arrays := <[values p := vs ++ [EVal (js_index JUndefined (data node) idx)]]>
                       (arrays h);
           lists := <[qlist p := set_dirty q]> (lists h);
           trackers := trackers h |}.
Proof.
  intros Hread Hscan Hv Hvs Hq. unfold add_type.
  rewrite Hscan. rewrite (bind_ok _ _ _ _ _ (lift_inr _ _)).
  rewrite Hread. simpl default. rewrite (read_type_token _ _ _ Hscan).
  rewrite (bind_ok _ _ _ _ _ (lift_inr _ _)).
  destruct (decide _) as [|_]; [done|]. by apply addMatch_ok.
Qed.

(** From creation to the first result: on a tracker that tracks nothing
    yet, a query by type created with [query], a node that carries a
    directive of that type, and a [queryRefresh] give a list that holds
    exactly the directive's instance; [queryRefresh] reports the change
    once, and a second call reports none and leaves the heap as it is. *)
Theorem query_lifecycle (assertPreviousIsParent : M unit) (queries : loc)
    (T : TypeToken) (descend : bool) (node : LNode) (idx : Z) (h : Heap) :
  (ngDevMode = true -> assertPreviousIsParent h = Ok tt h) ->
  trackers h !! queries = Some {| shallow := []; deep := [] |} ->
  geIdxOfMatchingDirective node (Some T) = inr (Some idx) ->
  js_index JUndefined (data node) idx ≠ JNull ->
  ∃ h1 h2 h3 q,
    query assertPreviousIsParent (mret queries) (inl T) descend None h
      = Ok (length (lists h)) h1 ∧
    addNode node queries h1 = Ok tt h2 ∧
    queryRefresh (length (lists h)) h2 = Ok true h3 ∧
    lists h3 !! length (lists h) = Some q ∧
    QueryList.toArray q = [js_index JUndefined (data node) idx] ∧
    changes q = 1 ∧
    queryRefresh (length (lists h)) h3 = Ok false h3.
Proof.
  intros Hassert Ht Hscan Hv.
  pose proof (query_call assertPreviousIsParent queries (inl T) descend None
                h _ Hassert Ht) as Hquery.
  simpl in Hquery.
  set (l := length (lists h)) in *. set (a := length (arrays h)) in *.
  set (p := {| qlist := l; type := Some T; selector := None; read := None;
               values := a |}) in *.
  set (q0 := {| dirty := true; changes := 0; _values := [];
                _valuesTree := a |}) in *.
  set (v := js_index JUndefined (data node) idx) in *.
  set (t1 := if descend then {| shallow := []; deep := [p] |}
             else {| shallow := [p]; deep := [] |}) in *.
  set (h1 := {| arrays := arrays h ++ [[]]; lists := lists h ++ [q0];
                trackers := <[queries := t1]> (trackers h) |}) in *.
  set (h2 := {| arrays := <[a := [] ++ [EVal v]]> (arrays h1);
                lists := <[l := set_dirty q0]> (lists h1);
                trackers := trackers h1 |}).
  set (q3 := {| dirty := false; changes := 1; _values := [v];
                _valuesTree := a |}).
  set (h3 := upd_lists (<[l := q3]>) h2).
  assert (Hlt : queries < length (trackers h)) by (by eapply lookup_lt_Some).
  assert (Ht1 : trackers h1 !! queries = Some t1).
  { subst h1. simpl. by apply list_lookup_insert_eq. }
  assert (Ha : arrays h1 !! a = Some []).
  { subst h1 a. simpl. by rewrite lookup_app_r, Nat.sub_diag. }
  assert (Hl : lists h1 !! l = Some q0).
  { subst h1 l. simpl. by rewrite lookup_app_r, Nat.sub_diag. }
  assert (Hadd : add_one p node h1 = Ok tt h2).
  { unfold add_one. simpl. by apply add_type_match. }
  assert (Hnode : addNode node queries h1 = Ok tt h2).
  { unfold addNode.
    rewrite (bind_ok _ _ _ _ _ (tracker_get_ok _ _ _ Ht1)).
    subst t1. destruct descend; simpl.
    - assert (Hnil : (mret tt : M unit) h1 = Ok tt h1) by done.
      rewrite (bind_ok _ _ _ _ _ Hnil).
      rewrite (bind_ok _ _ _ _ _ (tracker_get_ok _ _ _ Ht1)). simpl.
      by rewrite (bind_ok _ _ _ _ _ Hadd).
    - erewrite (bind_ok _ _ _ tt h2); cycle 1.
      { by rewrite (bind_ok _ _ _ _ _ Hadd). }
      assert (Ht2 : trackers h2 !! queries = Some {| shallow := [p]; deep := [] |})
        by done.
      by rewrite (bind_ok _ _ _ _ _ (tracker_get_ok _ _ _ Ht2)). }
  assert (Hl2 : lists h2 !! l = Some (set_dirty q0)).
  { subst h2. simpl. apply list_lookup_insert_eq. by eapply lookup_lt_Some. }
  assert (Hfl : flatten (arrays h2) a = Some [v]).
  { rewrite flatten_unfold. subst h2. simpl arrays.
    rewrite list_lookup_insert_eq by (by eapply lookup_lt_Some). done. }
  exists h1, h2, h3, q3. split; [done|]. split; [done|]. split.
  { by rewrite (queryRefresh_dirty _ _ (set_dirty q0) [v]). }
  assert (Hl3 : lists h3 !! l = Some q3).
  { subst h3. simpl. apply list_lookup_insert_eq. by eapply lookup_lt_Some. }
  split; [done|]. split; [done|]. split; [done|].
  by apply (queryRefresh_clean _ _ q3).
Qed.

End QuerySpec.

Lemma query_spec_witness :
  @query devEnv (mret tt) (mret 0) (inl 1) true None heap_one_deep
    = Ok 1 heap_one_deep_queried ∧
  (heap_wf heap_one_deep -> heap_wf heap_one_deep_queried).
Proof.
  exact (@query_spec devEnv (mret tt) 0 (inl 1) true None heap_one_deep
           {| shallow := []; deep := [typePredicate] |}
           (fun _ => eq_refl) eq_refl).
Defined.

Lemma query_lifecycle_witness :
  ∃ h1 h2 h3 q,
    @query devEnv (mret tt) (mret 0) (inl 1) false None
      (heap_of (newLQueries [] empty_heap)) = Ok 0 h1 ∧
    @addNode devEnv (directiveNode 1 (JObj 7)) 0 h1 = Ok tt h2 ∧
    queryRefresh 0 h2 = Ok true h3 ∧
    lists h3 !! 0 = Some q ∧
    QueryList.toArray q = [JObj 7] ∧
    changes q = 1 ∧
    queryRefresh 0 h3 = Ok false h3.
Proof.
  apply (@query_lifecycle devEnv (mret tt) 0 1 false (directiveNode 1 (JObj 7))
           0%Z (heap_of (newLQueries [] empty_heap))); done.
Defined.

Lemma queryRefresh_returns_witness :
  ∃ h', queryRefresh 0
          (@run devEnv [OpNewQueryList; OpNewLQueries;
                        OpTrack 0 0 (inl 1) true None;
                        OpContainer 0; OpEnterView 0 1;
                        OpAddNode (directiveNode 1 (JObj 3)) 2;
                        OpRemoveView 5 1] empty_heap)
        = Ok true h'.
Proof.
  exact (@queryRefresh_returns devEnv
           [OpNewQueryList; OpNewLQueries; OpTrack 0 0 (inl 1) true None;
            OpContainer 0; OpEnterView 0 1;
            OpAddNode (directiveNode 1 (JObj 3)) 2; OpRemoveView 5 1]
           0 {| dirty := true; changes := 0; _values := []; _valuesTree := 0 |}
           eq_refl).
Defined.
